(** * MazeFinder-GeneticAlgorithm: a shallow embedding of MazeFinder.cpp

    The development follows the translation unit top to bottom: the
    configuration constants, the genome and maze types, the thread pool,
    the fitness evaluator, the genetic operators and the generation loop
    of [main].  Vectors are lists indexed with stdpp's lookup and insert;
    an access outside a vector (undefined behaviour in C++) is [None]. *)

From Stdlib Require Import ZArith Lia Ascii.
From stdpp Require Import base option list.

Local Open Scope Z_scope.

(** ** Constants (MazeFinder.cpp, lines 13-17) *)

Module Config.
Definition MAZE_SIZE : Z := 20.
Definition POPULATION_SIZE : Z := 100.
Definition GENERATIONS : Z := 1000.
Definition THREAD_COUNT : Z := 4.
Definition GENOME_LENGTH : Z := 100.
End Config.

(** ** Data model (lines 19-26) *)

Inductive Direction : Set := UP | DOWN | LEFT | RIGHT | STAND.

#[global] Instance Direction_eq_dec : EqDecision Direction.
Proof. solve_decision. Defined.

(** [using Genome = std::vector<Direction>] and
    [using Maze = std::vector<std::vector<int>>]. *)
Abbreviation Genome := (list Direction).
Abbreviation Maze := (list (list Z)).

(** [v[i]] for an [int] index: defined inside the vector only. *)
Definition vec_at {A : Type} (v : list A) (i : Z) : option A :=
  if 0 <=? i then v !! Z.to_nat i else None.

(** [v[i] = a] for an [int] index: defined inside the vector only. *)
Definition vec_set {A : Type} (v : list A) (i : Z) (a : A) : option (list A) :=
  if (0 <=? i) && (i <? Z.of_nat (length v))
  then Some (<[Z.to_nat i := a]> v)
  else None.

(** [maze[y][x]] *)
Definition cell_at (maze : Maze) (y x : Z) : option Z :=
  row ← vec_at maze y; vec_at row x.

(** An N×N grid: N rows of N cells. *)
Definition square (N : Z) (maze : Maze) : bool :=
  bool_decide (Z.of_nat (length maze) = N)
  && forallb (λ row, bool_decide (Z.of_nat (length row) = N)) maze.

(** The maze [main] builds: [Maze maze(n, std::vector<int>(n, 0))]. *)
Definition open_maze (n : nat) : Maze := replicate n (replicate n 0).

(** ** Fitness evaluator (lines 101-114)

    [MAZE_SIZE] is a compile-time constant of the program; the evaluator
    is written for an arbitrary value [N] of it, and the driver below
    instantiates it at [Config.MAZE_SIZE].  Every intermediate value lies
    between 0 and 2N, so the [int] arithmetic is done in [Z]. *)

(** The [switch] of the loop body. *)
Definition apply_move (N : Z) (move : Direction) (x y : Z) : Z * Z :=
  match move with
  | UP => if y >? 0 then (x, y - 1) else (x, y)
  | DOWN => if y <? N - 1 then (x, y + 1) else (x, y)
  | LEFT => if x >? 0 then (x - 1, y) else (x, y)
  | RIGHT => if x <? N - 1 then (x + 1, y) else (x, y)
  | STAND => (x, y)
  end.

(** The [for] loop with its [break], from the position [(x, y)].  The
    result is the position at loop exit together with the cells
    [maze[y][x]] that were read, in order. *)
Fixpoint walk (N : Z) (maze : Maze) (genome : Genome) (x y : Z)
  : option (Z * Z * list (Z * Z)) :=
  match genome with
  | [] => Some (x, y, [])
  | move :: rest =>
      let '(x, y) := apply_move N move x y in
      cell ← cell_at maze y x;
      if cell =? 1 then Some (x, y, [(x, y)])
      else
        '(fx, fy, reads) ← walk N maze rest x y;
        Some (fx, fy, (x, y) :: reads)
  end.

Definition final_position (N : Z) (genome : Genome) (maze : Maze) : option (Z * Z) :=
  '(x, y, _) ← walk N maze genome 0 0; Some (x, y).

Definition cells_read (N : Z) (genome : Genome) (maze : Maze) : option (list (Z * Z)) :=
  '(_, _, reads) ← walk N maze genome 0 0; Some reads.

Definition evaluateFitness (N : Z) (genome : Genome) (maze : Maze) : option Z :=
  '(x, y, _) ← walk N maze genome 0 0; Some ((N - y) + (N - x)).

(** *** The evaluator as the specification words it (spec 4.1 and 4.3) *)

Inductive CellState : Set := OPEN | WALL.

(** [cellState(x, y)], defined for [0 <= x, y < N]. *)
Definition cellState (N : Z) (maze : Maze) (x y : Z) : option CellState :=
  if bool_decide (0 ≤ x < N ∧ 0 ≤ y < N)
  then c ← cell_at maze y x; Some (if bool_decide (c = 1) then WALL else OPEN)
  else None.

(** Move semantics with clamping at the boundary. *)
Definition move_semantics (N : Z) (m : Direction) (p : Z * Z) : Z * Z :=
  let '(x, y) := p in
  match m with
  | UP => (x, Z.max 0 (y - 1))
  | DOWN => (x, if bool_decide (y < N - 1) then y + 1 else y)
  | LEFT => (Z.max 0 (x - 1), y)
  | RIGHT => (if bool_decide (x < N - 1) then x + 1 else x, y)
  | STAND => (x, y)
  end.

(** [simulates N maze g p q]: the walk of genome [g] from position [p]
    ends at [q].  A move onto a WALL cell ends the walk; the moves after
    it are not executed. *)
Inductive simulates (N : Z) (maze : Maze) : Genome → Z * Z → Z * Z → Prop :=
  | sim_done p :
      simulates N maze [] p p
  | sim_wall m rest p :
      cellState N maze (move_semantics N m p).1 (move_semantics N m p).2 = Some WALL →
      simulates N maze (m :: rest) p (move_semantics N m p)
  | sim_open m rest p q :
      cellState N maze (move_semantics N m p).1 (move_semantics N m p).2 = Some OPEN →
      simulates N maze rest (move_semantics N m p) q →
      simulates N maze (m :: rest) p q.

(** ** Thread pool (lines 28-88)

    The queue, the stop flag and the workers are shared state behind
    [queue_mutex]; every operation below is one critical section, so the
    pool is a state machine whose transitions are taken one at a time.  A
    task is a closure run for its effect on the state it captured by
    reference; [None] is a task whose body has undefined behaviour. *)

Module ThreadPool.
Section Pool.
Variable Store : Type.

Definition Task : Type := Store → option Store.

Record t : Type := mk {
  workers : nat;        (* threads not yet joined *)
  tasks : list Task;    (* std::queue<Task>, front first *)
  stop : bool;
  submitted : nat       (* futures handed out so far *)
}.

(** [ThreadPool::ThreadPool(threads)] *)
Definition create (threads : nat) : t :=
  {| workers := threads; tasks := []; stop := false; submitted := 0 |}.

(** [ThreadPool::enqueue(f)]: wrap [f] in a packaged task, push it under
    the lock, notify one worker, return the future.  The future is the
    ticket of the submission. *)
Definition enqueue (f : Task) (pool : t) : t * nat :=
  ({| workers := workers pool;
      tasks := tasks pool ++ [f];
      stop := stop pool;
      submitted := S (submitted pool) |},
   submitted pool).

(** One iteration of a worker's [for(;;)] once its wait is over. *)
Inductive Iteration : Type :=
  | Returned                      (* stop && tasks.empty(): the thread ends *)
  | Waiting                       (* the predicate of the wait is false *)
  | Ran (pool : t) (s : option Store).

Definition worker_iteration (pool : t) (s : Store) : Iteration :=
  match tasks pool with
  | [] => if stop pool then Returned else Waiting
  | task :: rest =>
      Ran {| workers := workers pool; tasks := rest;
             stop := stop pool; submitted := submitted pool |}
          (task s)
  end.

(** The workers take queued tasks from the front until the queue is
    empty; [fuel] bounds the number of iterations.  The model runs the
    dequeued tasks one after the other; the real workers run them
    concurrently, so what is stated about the resulting store is stated
    for tasks whose effects do not depend on their order, such as the
    fitness tasks of [main], which write disjoint slots. *)
Fixpoint run_workers (fuel : nat) (pool : t) (s : Store) : option (t * Store) :=
  match fuel with
  | O => Some (pool, s)
  | S fuel =>
      match worker_iteration pool s with
      | Ran pool' (Some s') => run_workers fuel pool' s'
      | Ran _ None => None
      | Returned | Waiting => Some (pool, s)
      end
  end.

(** [future.get()] on every future of the queued tasks: the caller
    resumes once each of them has run.  [None]: a task misbehaves, or no
    worker is left to run a queued task and the wait never ends. *)
Definition get_all (pool : t) (s : Store) : option (t * Store) :=
  if bool_decide (0 < workers pool)%nat
  then run_workers (length (tasks pool)) pool s
  else match tasks pool with [] => Some (pool, s) | _ => None end.

(** Lines 69-72 of the destructor: [stop = true] under the lock.  From
    here until the workers are joined the pool is still in use: its
    workers run the queued tasks, and [enqueue] may be called. *)
Definition request_stop (pool : t) : t :=
  {| workers := workers pool; tasks := tasks pool;
     stop := true; submitted := submitted pool |}.

(** [ThreadPool::~ThreadPool()]: set [stop], wake everybody, join. *)
Definition destroy (pool : t) (s : Store) : option (t * Store) :=
  let pool := request_stop pool in
  '(pool, s) ← (if bool_decide (0 < workers pool)%nat
                then run_workers (length (tasks pool)) pool s
                else Some (pool, s));
  Some ({| workers := 0; tasks := tasks pool;
           stop := true; submitted := submitted pool |}, s).
End Pool.
End ThreadPool.

Arguments ThreadPool.mk {Store}.
Arguments ThreadPool.workers {Store}.
Arguments ThreadPool.tasks {Store}.
Arguments ThreadPool.stop {Store}.
Arguments ThreadPool.submitted {Store}.
Arguments ThreadPool.create {Store}.
Arguments ThreadPool.enqueue {Store}.
Arguments ThreadPool.worker_iteration {Store}.
Arguments ThreadPool.run_workers {Store}.
Arguments ThreadPool.get_all {Store}.
Arguments ThreadPool.destroy {Store}.
Arguments ThreadPool.request_stop {Store}.
Arguments ThreadPool.Returned {Store}.
Arguments ThreadPool.Waiting {Store}.
Arguments ThreadPool.Ran {Store}.

(** ** Random numbers

    Each function owns a [static std::mt19937 gen(rd())].  A generator is
    an oracle: the stream of numbers from which its successive draws are
    derived, so a statement quantified over generators covers every run.
    Of a distribution the model keeps what every implementation
    guarantees: a draw lies in the range, every value of the range is
    drawn for some generator, and the generator advances.  How the
    library maps engine output to a draw is not modelled, and no
    property below speaks about engine output. *)

Definition Gen : Type := nat → Z.

Definition gen_next (gen : Gen) : Z * Gen := (gen 0%nat, λ n, gen (S n)).

(** [std::uniform_int_distribution<> dis(a, b); dis(gen)]: a value of
    [a..b] obtained from the next number of the oracle. *)
Definition uniform_int_distribution (a b : Z) (gen : Gen) : Z * Gen :=
  let '(r, gen) := gen_next gen in (a + r `mod` (b - a + 1), gen).

(** [static_cast<Direction>(n)] for the value of an enumerator. *)
Definition Direction_of_int (n : Z) : option Direction :=
  match n with
  | 0 => Some UP
  | 1 => Some DOWN
  | 2 => Some LEFT
  | 3 => Some RIGHT
  | 4 => Some STAND
  | _ => None
  end.

(** ** Genome generation (lines 91-98) *)

(** [std::generate] over [n] slots. *)
Fixpoint generate (n : nat) (gen : Gen) : option (Genome * Gen) :=
  match n with
  | O => Some ([], gen)
  | S n =>
      let '(r, gen) := uniform_int_distribution 0 4 gen in
      d ← Direction_of_int r;
      '(rest, gen) ← generate n gen;
      Some (d :: rest, gen)
  end.

Definition generateRandomGenome (gen : Gen) : option (Genome * Gen) :=
  generate (Z.to_nat Config.GENOME_LENGTH) gen.

(** ** Genetic operators (lines 117-135) *)

(** [std::copy] of [count] elements of [src] from index [i] on, into
    [dst] at the same indices. *)
Fixpoint std_copy {A : Type} (src dst : list A) (i : Z) (count : nat)
  : option (list A) :=
  match count with
  | O => Some dst
  | S count =>
      a ← vec_at src i;
      dst ← vec_set dst i a;
      std_copy src dst (i + 1) count
  end.

(** The body of [crossover] after the draw:
    [child = parent1; std::copy(parent2.begin() + k, parent2.end(), child.begin() + k)]. *)
Definition crossover_at (crossover_point : Z) (parent1 parent2 : Genome)
  : option Genome :=
  if bool_decide (0 ≤ crossover_point ≤ Z.of_nat (length parent2))
  then std_copy parent2 parent1 crossover_point
         (length parent2 - Z.to_nat crossover_point)%nat
  else None.

Definition crossover (parent1 parent2 : Genome) (gen : Gen)
  : option (Genome * Gen) :=
  let '(crossover_point, gen) :=
    uniform_int_distribution 0 (Config.GENOME_LENGTH - 1) gen in
  child ← crossover_at crossover_point parent1 parent2;
  Some (child, gen).

(** The body of [mutate] after the two draws. *)
Definition mutate_at (mutation_point : Z) (d : Direction) (genome : Genome)
  : option Genome :=
  vec_set genome mutation_point d.

Definition mutate (genome : Genome) (gen : Gen) : option (Genome * Gen) :=
  let '(mutation_point, gen) :=
    uniform_int_distribution 0 (Config.GENOME_LENGTH - 1) gen in
  let '(r, gen) := uniform_int_distribution 0 4 gen in
  d ← Direction_of_int r;
  genome ← mutate_at mutation_point d genome;
  Some (genome, gen).

(** ** Generation driver ([main], lines 151-236) *)

(** The maze of [main]: every cell open. *)
Definition main_maze : Maze := open_maze (Z.to_nat Config.MAZE_SIZE).

(** The closure submitted for index [i] (lines 172-174 and 222-224):
    [fitness[i] = evaluateFitness(population[i], maze)].  The population
    and the maze are captured by reference and only read; the fitness
    table is the state the task writes. *)
Definition fitness_task (population : list Genome) (maze : Maze) (i : Z)
  : ThreadPool.Task (list Z) :=
  λ fitness,
    genome ← vec_at population i;
    cost ← evaluateFitness Config.MAZE_SIZE genome maze;
    vec_set fitness i cost.

(** [for (int i = 0; i < POPULATION_SIZE; ++i) futures.push_back(pool.enqueue(...))] *)
Fixpoint submit_all (population : list Genome) (maze : Maze) (i : Z) (count : nat)
  (pool : ThreadPool.t (list Z)) (futures : list nat)
  : ThreadPool.t (list Z) * list nat :=
  match count with
  | O => (pool, futures)
  | S count =>
      let '(pool, future) :=
        ThreadPool.enqueue (fitness_task population maze i) pool in
      submit_all population maze (i + 1) count pool (futures ++ [future])
  end.

(** One evaluation phase: submit a task per index, then wait for all. *)
Definition evaluate_phase (pool : ThreadPool.t (list Z))
  (population : list Genome) (fitness : list Z) (maze : Maze)
  : option (ThreadPool.t (list Z) * list Z) :=
  let '(pool, _) :=
    submit_all population maze 0 (Z.to_nat Config.POPULATION_SIZE) pool [] in
  ThreadPool.get_all pool fitness.

(** The comparator handed to [std::partial_sort] (lines 191-193).  Its
    arguments are references; [&a - population.data()] is the offset of
    the referenced object from the start of the vector, so the comparator
    is a function of the two offsets, not of the genomes stored there. *)
Definition selection_less (fitness : list Z) (offset_a offset_b : Z) : option bool :=
  fa ← vec_at fitness offset_a;
  fb ← vec_at fitness offset_b;
  Some (fa <? fb).

(** What a comparator of the library receives: a reference to an element
    of the vector, at some offset from its start, or a reference to a
    copy the library holds in a variable of its own. *)
Inductive Ref : Set :=
  | InVector (offset : Z)
  | Local.

(** The comparator of lines 191-193 on references.  For an object that
    is not an element of the vector, [&a - population.data()] subtracts
    pointers into different objects: no offset is defined. *)
Definition selection_comp (fitness : list Z) (a b : Ref) : option bool :=
  match a, b with
  | InVector offset_a, InVector offset_b =>
      selection_less fitness offset_a offset_b
  | _, _ => None
  end.

(** Exchange of two elements of a vector, the way an in-place sort moves
    them. *)
Definition exchange {A : Type} (i j : nat) (v : list A) : list A :=
  match v !! i, v !! j with
  | Some a, Some b => <[i := b]> (<[j := a]> v)
  | _, _ => v
  end.

(** [*std::min_element(v.begin(), v.end())] *)
Definition min_element (v : list Z) : option Z :=
  match v with
  | [] => None
  | a :: rest => Some (foldl (λ smallest b, if b <? smallest then b else smallest) a rest)
  end.

Record State : Type := {
  population : list Genome;
  fitness : list Z;
  pool : ThreadPool.t (list Z);
  crossover_gen : Gen;     (* the static generator of [crossover] *)
  mutate_gen : Gen         (* the static generator of [mutate] *)
}.

(** Lines 203-208: elite [i], then the mutated child of elite [i] and
    elite [POPULATION_SIZE / 2 - i - 1]. *)
Fixpoint assemble (population : list Genome) (i : Z) (count : nat)
  (new_population : list Genome) (cgen mgen : Gen)
  : option (list Genome * Gen * Gen) :=
  match count with
  | O => Some (new_population, cgen, mgen)
  | S count =>
      elite ← vec_at population i;
      partner ← vec_at population (Config.POPULATION_SIZE ÷ 2 - i - 1);
      '(child, cgen) ← crossover elite partner cgen;
      '(child, mgen) ← mutate child mgen;
      assemble population (i + 1) count
        (new_population ++ [elite] ++ [child]) cgen mgen
  end.

(** [std::generate]-style initialisation of the population (lines 160-163). *)
Fixpoint initial_population (count : nat) (gen : Gen) : option (list Genome * Gen) :=
  match count with
  | O => Some ([], gen)
  | S count =>
      '(genome, gen) ← generateRandomGenome gen;
      '(rest, gen) ← initial_population count gen;
      Some (genome :: rest, gen)
  end.

(** Lines 201-232, run on the vector the selection has left: crossover
    and mutation, replacement of the population, re-evaluation, and the
    value printed after "Best Fitness: ". *)
Definition reproduce (pool : ThreadPool.t (list Z)) (fitness : list Z)
  (population : list Genome) (cgen mgen : Gen) : option (State * Z) :=
  (* Crossover and mutation *)
  '(new_population, cgen, mgen) ←
    assemble population 0 (Z.to_nat (Config.POPULATION_SIZE ÷ 2)) [] cgen mgen;
  let population := new_population in
  (* Evaluate new population fitness *)
  '(pool, fitness) ← evaluate_phase pool population fitness main_maze;
  (* Best fitness in this generation *)
  best_fitness ← min_element fitness;
  Some ({| population := population; fitness := fitness; pool := pool;
           crossover_gen := cgen; mutate_gen := mgen |},
        best_fitness).

Section Driver.
(** [std::partial_sort(first, first + middle, last, comp)] belongs to the
    C++ library, not to the program.  It is a parameter: it receives the
    comparator on references, [middle] and the vector; [None] is a call
    whose behaviour is undefined.  [std_partial_sort] below is the
    implementation of libstdc++. *)
Variable partial_sort :
  (Ref → Ref → option bool) → Z → list Genome → option (list Genome).

(** One iteration of the generation loop; the second component is the
    value printed after "Best Fitness: ". *)
Definition generation (st : State) : option (State * Z) :=
  (* Evaluate fitness *)
  '(pool, fitness) ←
    evaluate_phase (pool st) (population st) (fitness st) main_maze;
  (* Selection *)
  population ←
    partial_sort (selection_comp fitness) (Config.POPULATION_SIZE ÷ 2)
      (population st);
  reproduce pool fitness population (crossover_gen st) (mutate_gen st).

(** [count] iterations of the loop, with the values printed. *)
Fixpoint generations (count : nat) (st : State) : option (State * list Z) :=
  match count with
  | O => Some (st, [])
  | S count =>
      '(st, best) ← generation st;
      '(st, printed) ← generations count st;
      Some (st, best :: printed)
  end.

(** The state [main] enters the loop with, for the three generators of
    [generateRandomGenome], [crossover] and [mutate]. *)
Definition main_init (ggen cgen mgen : Gen) : option State :=
  '(population, _) ←
    initial_population (Z.to_nat Config.POPULATION_SIZE) ggen;
  Some {| population := population;
          fitness := replicate (Z.to_nat Config.POPULATION_SIZE) 0;
          pool := ThreadPool.create (Z.to_nat Config.THREAD_COUNT);
          crossover_gen := cgen; mutate_gen := mgen |}.

(** [main]: the values printed by the [GENERATIONS] iterations. *)
Definition main (ggen cgen mgen : Gen) : option (list Z) :=
  st ← main_init ggen cgen mgen;
  '(st, printed) ← generations (Z.to_nat Config.GENERATIONS) st;
  '(_, _) ← ThreadPool.destroy (pool st) (fitness st);
  Some printed.
End Driver.

(** ** [std::partial_sort] of libstdc++

    The library is not part of the repository; this is the algorithm of
    GCC 12, [bits/stl_algo.h] ([partial_sort], [__partial_sort],
    [__heap_select]) and [bits/stl_heap.h] ([__make_heap],
    [__adjust_heap], [__push_heap], [__pop_heap], [__sort_heap]), for a
    comparator that looks at where its arguments are, as the one of
    [main] does.  [first] is the start of the vector, so an iterator is
    an offset.  A moved-from element is left [hollow] (a moved-from
    [std::vector] is empty).  An outcome is a result, undefined behaviour
    (an undefined comparison or an access outside the vector), or an
    iteration bound of the model that was too small. *)

Module Libstdcxx.

Inductive Outcome (A : Type) : Type :=
  | Returns (a : A)
  | Undefined
  | Unfinished.
Arguments Returns {A}.
Arguments Undefined {A}.
Arguments Unfinished {A}.

Definition bind {A B : Type} (r : Outcome A) (k : A → Outcome B) : Outcome B :=
  match r with
  | Returns a => k a
  | Undefined => Undefined
  | Unfinished => Unfinished
  end.

Definition defined {A : Type} (o : option A) : Outcome A :=
  match o with
  | Some a => Returns a
  | None => Undefined
  end.

Notation "x ←ᵣ r ; k" := (bind r (λ x, k))
  (at level 20, r at level 100, k at level 200, right associativity).
Notation "' x ←ᵣ r ; k" := (bind r (λ x, k))
  (at level 20, x pattern, r at level 100, k at level 200, right associativity).

Section Heap.
Context {A : Type}.
Variable hollow : A.
Variable comp : Ref → Ref → option bool.

(** [first[to] = std::move(first[from])] *)
Definition move_element (v : list A) (to from : Z) : Outcome (list A) :=
  a ←ᵣ defined (vec_at v from);
  v ←ᵣ defined (vec_set v from hollow);
  defined (vec_set v to a).

(** [T value = std::move(first[from])] *)
Definition move_out (v : list A) (from : Z) : Outcome (A * list A) :=
  a ←ᵣ defined (vec_at v from);
  v ←ᵣ defined (vec_set v from hollow);
  Returns (a, v).

(** [std::__push_heap]; [__value] is a copy held by the library, so the
    comparator is called on an element of the vector and on that copy.
    [fuel] bounds the iterations of the loop. *)
Fixpoint push_heap (fuel : nat) (v : list A) (holeIndex topIndex : Z) (value : A)
  : Outcome (list A) :=
  let parent := (holeIndex - 1) ÷ 2 in
  again ←ᵣ (if holeIndex >? topIndex
            then defined (comp (InVector parent) Local)
            else Returns false);
  if again : bool then
    match fuel with
    | O => Unfinished
    | S fuel =>
        v ←ᵣ move_element v holeIndex parent;
        push_heap fuel v parent topIndex value
    end
  else defined (vec_set v holeIndex value).

(** The [while] loop of [std::__adjust_heap]; it returns the vector, the
    hole and [__secondChild]. *)
Fixpoint adjust_heap_loop (fuel : nat) (v : list A) (holeIndex secondChild len : Z)
  : Outcome (list A * Z * Z) :=
  if secondChild <? (len - 1) ÷ 2 then
    match fuel with
    | O => Unfinished
    | S fuel =>
        let secondChild := 2 * (secondChild + 1) in
        less ←ᵣ defined (comp (InVector secondChild) (InVector (secondChild - 1)));
        let secondChild := if less : bool then secondChild - 1 else secondChild in
        v ←ᵣ move_element v holeIndex secondChild;
        adjust_heap_loop fuel v secondChild secondChild len
    end
  else Returns (v, holeIndex, secondChild).

(** [std::__adjust_heap] *)
Definition adjust_heap (v : list A) (holeIndex len : Z) (value : A) : Outcome (list A) :=
  let topIndex := holeIndex in
  '(v, holeIndex, secondChild) ←ᵣ
    adjust_heap_loop (Z.to_nat len) v holeIndex holeIndex len;
  '(v, holeIndex) ←ᵣ
    (if (Z.land len 1 =? 0) && (secondChild =? (len - 2) ÷ 2)
     then
       let secondChild := 2 * (secondChild + 1) in
       v ←ᵣ move_element v holeIndex (secondChild - 1);
       Returns (v, secondChild - 1)
     else Returns (v, holeIndex));
  push_heap (Z.to_nat holeIndex) v holeIndex topIndex value.

(** [std::__pop_heap(first, first + last, first + result, comp)] *)
Definition pop_heap (v : list A) (last result : Z) : Outcome (list A) :=
  '(value, v) ←ᵣ move_out v result;
  v ←ᵣ move_element v result 0;
  adjust_heap v 0 last value.

(** The [while (true)] loop of [std::__make_heap], from [parent] down
    to 0. *)
Fixpoint make_heap_loop (v : list A) (len : Z) (parent : nat) : Outcome (list A) :=
  '(value, v) ←ᵣ move_out v (Z.of_nat parent);
  v ←ᵣ adjust_heap v (Z.of_nat parent) len value;
  match parent with
  | O => Returns v
  | S parent => make_heap_loop v len parent
  end.

(** [std::__make_heap(first, first + last, comp)] *)
Definition make_heap (v : list A) (last : Z) : Outcome (list A) :=
  if last <? 2 then Returns v
  else make_heap_loop v last (Z.to_nat ((last - 2) ÷ 2)).

(** The [for] loop of [std::__heap_select] from [i] on, [count]
    elements being left. *)
Fixpoint heap_select_loop (v : list A) (middle i : Z) (count : nat) : Outcome (list A) :=
  match count with
  | O => Returns v
  | S count =>
      less ←ᵣ defined (comp (InVector i) (InVector 0));
      v ←ᵣ (if less : bool then pop_heap v middle i else Returns v);
      heap_select_loop v middle (i + 1) count
  end.

(** [std::__heap_select(first, first + middle, last, comp)] *)
Definition heap_select (v : list A) (middle : Z) : Outcome (list A) :=
  v ←ᵣ make_heap v middle;
  heap_select_loop v middle middle (Z.to_nat (Z.of_nat (length v) - middle)).

(** The [while (last - first > 1)] loop of [std::__sort_heap]. *)
Fixpoint sort_heap_loop (v : list A) (last : Z) (count : nat) : Outcome (list A) :=
  match count with
  | O => Returns v
  | S count =>
      let last := last - 1 in
      v ←ᵣ pop_heap v last last;
      sort_heap_loop v last count
  end.

(** [std::__sort_heap(first, first + last, comp)] *)
Definition sort_heap (v : list A) (last : Z) : Outcome (list A) :=
  sort_heap_loop v last (Z.to_nat (last - 1)).

(** [std::partial_sort(first, first + middle, last, comp)]; the range
    [first, first + middle) has to lie in the vector. *)
Definition partial_sort (middle : Z) (v : list A) : Outcome (list A) :=
  if (0 <=? middle) && (middle <=? Z.of_nat (length v)) then
    v ←ᵣ heap_select v middle;
    sort_heap v middle
  else Undefined.
End Heap.
End Libstdcxx.

(** The library call of [main] with libstdc++; [None] when the call does
    not return a vector. *)
Definition std_partial_sort (comp : Ref → Ref → option bool) (middle : Z)
  (v : list Genome) : option (list Genome) :=
  match Libstdcxx.partial_sort [] comp middle v with
  | Libstdcxx.Returns v => Some v
  | _ => None
  end.

(** A generator whose first number is [a] and whose later ones are [b]. *)
Definition two_draws (a b : Z) : Gen :=
  λ n, match n with O => a | S _ => b end.

(** The number of an enumerator. *)
Definition int_of_Direction (d : Direction) : Z :=
  match d with
  | UP => 0
  | DOWN => 1
  | LEFT => 2
  | RIGHT => 3
  | STAND => 4
  end.

(** A generator whose successive numbers are those of the moves [ms]. *)
Definition gen_of_moves (ms : list Direction) : Gen :=
  λ n, int_of_Direction (default STAND (ms !! n)).

(** The evaluation tasks of the indices [js], in that order. *)
Definition fitness_tasks (population : list Genome) (maze : Maze) (js : list nat)
  : list (ThreadPool.Task (list Z)) :=
  (λ j, fitness_task population maze (Z.of_nat j)) <$> js.

(** A generator whose numbers are all [r]. *)
Definition constant_gen (r : Z) : Gen := λ _, r.

(** A position of the N×N grid. *)
Definition in_grid (N : Z) (p : Z * Z) : Prop := 0 ≤ p.1 < N ∧ 0 ≤ p.2 < N.

(** A genome of [main]'s length that walks along the top row and down the
    last column to the bottom-right cell, then stands. *)
Definition corner_genome : Genome :=
  replicate 19 RIGHT ++ replicate 19 DOWN ++ replicate 62 STAND.

(** The 4×4 maze with a single wall at [(x, y) = (1, 0)]. *)
Definition wall_maze : Maze :=
  [[0; 1; 0; 0]; [0; 0; 0; 0]; [0; 0; 0; 0]; [0; 0; 0; 0]].

(** Genomes of [main]'s length: standing still (cost 40 in [main_maze]),
    and one step to the right (cost 39). *)
Definition stand_genome : Genome := replicate 100 STAND.
Definition right_genome : Genome := RIGHT :: replicate 99 STAND.

(** A task that does nothing. *)
Definition noop : ThreadPool.Task (list Z) := λ s, Some s.

(** A population of [main]'s size in which only the genome at index 1 is
    not the costliest, and the fitness table [main] computes for it. *)
Definition unsorted_population : list Genome :=
  stand_genome :: right_genome :: replicate 98 stand_genome.

Definition unsorted_fitness : list Z := 40 :: 39 :: replicate 98 40.

(** A call of the selection comparator on references to the elements at
    offsets [i] and [j] of the vector as it stands: the two genomes that
    are being compared, and the verdict "the first is less". *)
Definition compare_at (fitness : list Z) (population : list Genome) (i j : nat)
  : option (Genome * Genome * bool) :=
  a ← population !! i;
  b ← population !! j;
  verdict ← selection_less fitness (Z.of_nat i) (Z.of_nat j);
  Some (a, b, verdict).

(** The queue contents after submitting the tasks of indices
    [i .. i+count-1], and a FIFO run of a queue. *)
Definition task_list (population : list Genome) (maze : Maze) (i count : nat)
  : list (ThreadPool.Task (list Z)) :=
  (λ j, fitness_task population maze (Z.of_nat j)) <$> seq i count.

Fixpoint run_list {Store : Type} (ts : list (ThreadPool.Task Store)) (s : Store)
  : option Store :=
  match ts with
  | [] => Some s
  | task :: ts => s ← task s; run_list ts s
  end.

(** The FitnessTable of a population: the cost of each genome in
    [main_maze], index by index. *)
Definition fitness_table (population : list Genome) : option (list Z) :=
  mapM (λ genome, evaluateFitness Config.MAZE_SIZE genome main_maze) population.

(** [child] is a mutated crossover child of [elite] and [partner], for
    some states of the two generators. *)
Definition offspring (elite partner child : Genome) : Prop :=
  ∃ cgen cgen' mgen mgen' crossed,
    crossover elite partner cgen = Some (crossed, cgen')
    ∧ mutate crossed mgen = Some (child, mgen').

(** The loop invariant of [main]: sizes as configured, an idle pool with
    live workers. *)
Definition well_formed (st : State) : bool :=
  bool_decide (Z.of_nat (length (population st)) = Config.POPULATION_SIZE)
  && bool_decide (Z.of_nat (length (fitness st)) = Config.POPULATION_SIZE)
  && forallb (λ g, bool_decide (Z.of_nat (length g) = Config.GENOME_LENGTH))
       (population st)
  && match ThreadPool.tasks (pool st) with [] => true | _ => false end
  && bool_decide (0 < ThreadPool.workers (pool st))%nat.

(** A genome of the configured length. *)
Definition genome_sized (g : Genome) : Prop :=
  Z.of_nat (length g) = Config.GENOME_LENGTH.

(** The state [main] enters the loop with when every draw of
    [generateRandomGenome] gives STAND: all genomes stand still. *)
Definition all_stand_state : State :=
  {| population := replicate 100 stand_genome;
     fitness := replicate 100 0;
     pool := ThreadPool.create 4;
     crossover_gen := constant_gen 0;
     mutate_gen := constant_gen 3 |}.

(** ** Printing (lines 138-149)

    [printGenome] writes one letter per move and ends the line; the
    result is the sequence of characters sent to [std::cout]. *)

Definition letter (direction : Direction) : ascii :=
  match direction with
  | UP => "U"%char
  | DOWN => "D"%char
  | LEFT => "L"%char
  | RIGHT => "R"%char
  | STAND => "S"%char
  end.

(** The character [std::endl] writes. *)
Definition endl : ascii := "010"%char.

Definition printGenome (genome : Genome) : list ascii :=
  (letter <$> genome) ++ [endl].

(** [for (const auto& genome : population) printGenome(genome);]
    (lines 214-216). *)
Definition print_population (population : list Genome) : list ascii :=
  mjoin (printGenome <$> population).

(** The walk stopped on a wall: the last cell read holds 1. *)
Definition ends_on_wall (maze : Maze) (reads : list (Z * Z)) : bool :=
  match last reads with
  | Some (x, y) => bool_decide (cell_at maze y x = Some 1)
  | None => false
  end.

(* ================================================================== *)
(** * Properties *)

(** ** Vectors *)

Lemma vec_at_Some {A : Type} (v : list A) (i : Z) :
  0 ≤ i < Z.of_nat (length v) → ∃ a, vec_at v i = Some a.
Proof.
  intros [Hlo Hhi]. unfold vec_at.
  destruct (Z.leb_spec 0 i) as [_|]; [|lia].
  apply lookup_lt_is_Some_2. lia.
Qed.

Lemma vec_at_lookup {A : Type} (v : list A) (i : nat) :
  vec_at v (Z.of_nat i) = v !! i.
Proof.
  unfold vec_at. destruct (Z.leb_spec 0 (Z.of_nat i)); [|lia].
  by rewrite Nat2Z.id.
Qed.

Lemma vec_at_inv {A : Type} (v : list A) (i : Z) (a : A) :
  vec_at v i = Some a → 0 ≤ i < Z.of_nat (length v) ∧ v !! Z.to_nat i = Some a.
Proof.
  unfold vec_at. destruct (Z.leb_spec 0 i); [|done].
  intros Hl. split; [|done]. apply lookup_lt_Some in Hl. lia.
Qed.

Lemma vec_set_Some {A : Type} (v : list A) (i : Z) (a : A) :
  0 ≤ i < Z.of_nat (length v) → vec_set v i a = Some (<[Z.to_nat i := a]> v).
Proof.
  intros [Hlo Hhi]. unfold vec_set.
  destruct (Z.leb_spec 0 i); [|lia].
  destruct (Z.ltb_spec i (Z.of_nat (length v))); [done|lia].
Qed.

Lemma vec_set_inv {A : Type} (v v' : list A) (i : Z) (a : A) :
  vec_set v i a = Some v' →
  0 ≤ i < Z.of_nat (length v) ∧ v' = <[Z.to_nat i := a]> v.
Proof.
  unfold vec_set.
  destruct (Z.leb_spec 0 i); [|done].
  destruct (Z.ltb_spec i (Z.of_nat (length v))); [|done].
  intros [= <-]. split; [lia|done].
Qed.

(** ** Fitness evaluator *)

Lemma square_cell (N : Z) (maze : Maze) (x y : Z) :
  square N maze = true → in_grid N (x, y) → ∃ c, cell_at maze y x = Some c.
Proof.
  unfold square, in_grid. simpl.
  intros [Hrows Hcols]%andb_prop [Hx Hy].
  apply bool_decide_eq_true in Hrows.
  destruct (vec_at_Some maze y) as [row Hrow]; [lia|].
  unfold cell_at. rewrite Hrow. simpl.
  apply vec_at_inv in Hrow as [_ Hrow].
  rewrite forallb_forall in Hcols.
  specialize (Hcols row). rewrite <- list_elem_of_In in Hcols.
  apply list_elem_of_lookup_2 in Hrow.
  apply Hcols, bool_decide_eq_true in Hrow.
  apply vec_at_Some. lia.
Qed.

Lemma apply_move_in_grid (N : Z) (m : Direction) (x y : Z) :
  in_grid N (x, y) → in_grid N (apply_move N m x y).
Proof.
  unfold in_grid. simpl. intros [Hx Hy].
  destruct m; simpl;
    repeat match goal with
      | |- context [?a >? ?b] => rewrite (Z.gtb_ltb a b); destruct (Z.ltb_spec b a)
      | |- context [?a <? ?b] => destruct (Z.ltb_spec a b)
      end; simpl; lia.
Qed.

Lemma apply_move_semantics (N : Z) (m : Direction) (x y : Z) :
  0 ≤ x → 0 ≤ y → apply_move N m x y = move_semantics N m (x, y).
Proof.
  intros Hx Hy.
  destruct m; simpl;
    repeat match goal with
      | |- context [?a >? ?b] => rewrite (Z.gtb_ltb a b); destruct (Z.ltb_spec b a)
      | |- context [bool_decide ?P] => destruct (bool_decide_reflect P)
      | |- context [?a <? ?b] => destruct (Z.ltb_spec a b)
      end; f_equal; lia.
Qed.

Lemma cellState_cell (N : Z) (maze : Maze) (x y c : Z) :
  in_grid N (x, y) → cell_at maze y x = Some c →
  cellState N maze x y = Some (if c =? 1 then WALL else OPEN).
Proof.
  unfold in_grid, cellState. simpl. intros Hin Hc.
  rewrite bool_decide_eq_true_2 by done. rewrite Hc. simpl.
  destruct (Z.eqb_spec c 1), (bool_decide_reflect (c = 1)); done.
Qed.

(** The loop never leaves the grid, reads only cells of the grid, and
    ends where the specified walk ends. *)
Lemma walk_simulates (N : Z) (maze : Maze) (genome : Genome) :
  square N maze = true →
  ∀ x y, in_grid N (x, y) →
    ∃ fx fy reads,
      walk N maze genome x y = Some (fx, fy, reads)
      ∧ in_grid N (fx, fy)
      ∧ Forall (in_grid N) reads
      ∧ simulates N maze genome (x, y) (fx, fy).
Proof.
  intros Hsq. induction genome as [|m rest IH]; intros x y Hin.
  - exists x, y, []. repeat split; try apply Hin; [constructor|constructor].
  - pose proof (apply_move_in_grid N m x y Hin) as Hin'.
    pose proof (apply_move_semantics N m x y (proj1 (proj1 Hin)) (proj1 (proj2 Hin))) as Hsem.
    simpl. destruct (apply_move N m x y) as [x' y'] eqn:Hmove.
    destruct (square_cell N maze x' y' Hsq Hin') as [c Hc].
    pose proof (cellState_cell N maze x' y' c Hin' Hc) as Hstate.
    rewrite Hc. simpl.
    destruct (Z.eqb_spec c 1) as [Hwall|Hopen].
    + exists x', y', [(x', y')]. split; [done|]. split; [done|].
      split; [by constructor|].
      rewrite Hsem. apply sim_wall. by rewrite <- Hsem.
    + destruct (IH x' y' Hin') as (fx & fy & reads & Hw & Hf & Hr & Hs).
      exists fx, fy, ((x', y') :: reads). rewrite Hw. simpl.
      split; [done|]. split; [done|]. split; [by constructor|].
      apply sim_open; rewrite <- Hsem; done.
Qed.

Lemma simulates_deterministic (N : Z) (maze : Maze) (genome : Genome) (p q q' : Z * Z) :
  simulates N maze genome p q → simulates N maze genome p q' → q = q'.
Proof.
  intros H. revert q'.
  induction H as [p|m rest p Hw|m rest p q Ho Hs IH]; intros q' H'.
  - by inversion H'.
  - inversion H' as [| |? ? ? ? Ho' Hs']; subst; [done|congruence].
  - inversion H' as [|? ? ? Hw'|? ? ? ? Ho' Hs']; subst; [congruence|].
    by apply IH.
Qed.

(** The scenarios of the specification, run on the loop. *)
Example scenario_open_maze :
  final_position 4 [RIGHT; RIGHT; DOWN; DOWN] (open_maze 4) = Some (2, 2)
  ∧ evaluateFitness 4 [RIGHT; RIGHT; DOWN; DOWN] (open_maze 4) = Some 4.
Proof. split; reflexivity. Qed.

Example scenario_wall :
  final_position 4 [RIGHT; RIGHT; DOWN] wall_maze = Some (1, 0)
  ∧ cells_read 4 [RIGHT; RIGHT; DOWN] wall_maze = Some [(1, 0)]
  ∧ evaluateFitness 4 [RIGHT; RIGHT; DOWN] wall_maze = Some 7.
Proof. repeat split; reflexivity. Qed.

(** C1: on an N×N maze, [evaluateFitness] ends at the position where the
    specified walk from (0,0) ends (moves applied in order with clamping
    at the boundary, the walk stopping at the first move that lands on a
    WALL cell), that final position is unique, and the value returned is
    exactly (N - finalY) + (N - finalX). *)
Theorem evaluateFitness_simulates (N : Z) (genome : Genome) (maze : Maze) :
  1 ≤ N → square N maze = true →
  ∃ finalX finalY,
    simulates N maze genome (0, 0) (finalX, finalY)
    ∧ (∀ q, simulates N maze genome (0, 0) q → q = (finalX, finalY))
    ∧ final_position N genome maze = Some (finalX, finalY)
    ∧ evaluateFitness N genome maze = Some ((N - finalY) + (N - finalX)).
Proof.
  intros HN Hsq.
  destruct (walk_simulates N maze genome Hsq 0 0) as (fx & fy & reads & Hw & _ & _ & Hs).
  { unfold in_grid; simpl; lia. }
  exists fx, fy. split; [done|]. split.
  - intros q Hq. exact (simulates_deterministic _ _ _ _ _ _ Hq Hs).
  - unfold final_position, evaluateFitness. by rewrite Hw.
Qed.

Lemma evaluateFitness_simulates_witness :
  ∃ finalX finalY,
    simulates 4 (open_maze 4) [RIGHT; RIGHT; DOWN; DOWN] (0, 0) (finalX, finalY)
    ∧ (∀ q, simulates 4 (open_maze 4) [RIGHT; RIGHT; DOWN; DOWN] (0, 0) q
            → q = (finalX, finalY))
    ∧ final_position 4 [RIGHT; RIGHT; DOWN; DOWN] (open_maze 4) = Some (finalX, finalY)
    ∧ evaluateFitness 4 [RIGHT; RIGHT; DOWN; DOWN] (open_maze 4)
      = Some ((4 - finalY) + (4 - finalX)).
Proof.
  apply (evaluateFitness_simulates 4 [RIGHT; RIGHT; DOWN; DOWN] (open_maze 4));
    [lia | reflexivity].
Defined.

(** C8: on an N×N maze every cell read by [evaluateFitness] lies inside
    the grid (0 <= x < N and 0 <= y < N) and is a cell of the maze, so the
    evaluation never makes an out-of-range access and returns a value. *)
Theorem evaluateFitness_reads_in_grid (N : Z) (genome : Genome) (maze : Maze) :
  1 ≤ N → square N maze = true →
  ∃ reads,
    cells_read N genome maze = Some reads
    ∧ Forall (λ p, 0 ≤ p.1 < N ∧ 0 ≤ p.2 < N) reads
    ∧ Forall (λ p, is_Some (cell_at maze p.2 p.1)) reads
    ∧ is_Some (evaluateFitness N genome maze).
Proof.
  intros HN Hsq.
  destruct (walk_simulates N maze genome Hsq 0 0) as (fx & fy & reads & Hw & _ & Hr & _).
  { unfold in_grid; simpl; lia. }
  exists reads. unfold cells_read, evaluateFitness. rewrite Hw. simpl.
  split; [done|]. split; [exact Hr|]. split; [|by eexists].
  eapply Forall_impl; [exact Hr|].
  intros [x y] Hin. destruct (square_cell N maze x y Hsq Hin) as [c Hc].
  simpl. by exists c.
Qed.

Lemma evaluateFitness_reads_in_grid_witness :
  ∃ reads,
    cells_read 4 [RIGHT; RIGHT; DOWN] wall_maze = Some reads
    ∧ Forall (λ p, 0 ≤ p.1 < 4 ∧ 0 ≤ p.2 < 4) reads
    ∧ Forall (λ p, is_Some (cell_at wall_maze p.2 p.1)) reads
    ∧ is_Some (evaluateFitness 4 [RIGHT; RIGHT; DOWN] wall_maze).
Proof.
  apply (evaluateFitness_reads_in_grid 4 [RIGHT; RIGHT; DOWN] wall_maze);
    [lia | reflexivity].
Defined.

(** C10: on an N×N maze with N >= 1 the final position has
    finalX <= N-1 and finalY <= N-1, so [evaluateFitness] returns a value
    of at least 2; it never returns 0. *)
Theorem evaluateFitness_at_least_two (N : Z) (genome : Genome) (maze : Maze) :
  1 ≤ N → square N maze = true →
  ∃ finalX finalY cost,
    final_position N genome maze = Some (finalX, finalY)
    ∧ finalX ≤ N - 1 ∧ finalY ≤ N - 1
    ∧ evaluateFitness N genome maze = Some cost
    ∧ cost = (N - finalY) + (N - finalX)
    ∧ 2 ≤ cost
    ∧ evaluateFitness N genome maze ≠ Some 0.
Proof.
  intros HN Hsq.
  destruct (walk_simulates N maze genome Hsq 0 0) as (fx & fy & reads & Hw & Hf & _ & _).
  { unfold in_grid; simpl; lia. }
  destruct Hf as [Hx Hy]. simpl in Hx, Hy.
  exists fx, fy, ((N - fy) + (N - fx)).
  unfold final_position, evaluateFitness. rewrite Hw. simpl.
  repeat split; try done; try lia.
  intros [= H0]. lia.
Qed.

Lemma evaluateFitness_at_least_two_witness :
  ∃ finalX finalY cost,
    final_position Config.MAZE_SIZE corner_genome main_maze = Some (finalX, finalY)
    ∧ finalX ≤ Config.MAZE_SIZE - 1 ∧ finalY ≤ Config.MAZE_SIZE - 1
    ∧ evaluateFitness Config.MAZE_SIZE corner_genome main_maze = Some cost
    ∧ cost = (Config.MAZE_SIZE - finalY) + (Config.MAZE_SIZE - finalX)
    ∧ 2 ≤ cost
    ∧ evaluateFitness Config.MAZE_SIZE corner_genome main_maze ≠ Some 0.
Proof.
  apply (evaluateFitness_at_least_two Config.MAZE_SIZE corner_genome main_maze);
    [unfold Config.MAZE_SIZE; lia | reflexivity].
Defined.

(** The target cell is the one place where the cost is 2, the least
    value the evaluator returns. *)
Lemma evaluateFitness_two_iff_target (N : Z) (genome : Genome) (maze : Maze) :
  1 ≤ N → square N maze = true →
  (evaluateFitness N genome maze = Some 2
   ↔ final_position N genome maze = Some (N - 1, N - 1)).
Proof.
  intros HN Hsq.
  destruct (walk_simulates N maze genome Hsq 0 0) as (fx & fy & reads & Hw & Hf & _ & _).
  { unfold in_grid; simpl; lia. }
  destruct Hf as [Hx Hy]. simpl in Hx, Hy.
  unfold final_position, evaluateFitness. rewrite Hw. simpl. split.
  - intros [= H2]. do 2 f_equal; lia.
  - intros [= -> ->]. f_equal. lia.
Qed.

(** C3 (evaluation at the failing input): in [main]'s all-open 20×20
    maze, a genome whose walk ends on the bottom-right target cell
    (19,19) is given cost 2, not 0. *)
Theorem target_corner_costs_two :
  final_position Config.MAZE_SIZE corner_genome main_maze
    = Some (Config.MAZE_SIZE - 1, Config.MAZE_SIZE - 1)
  ∧ evaluateFitness Config.MAZE_SIZE corner_genome main_maze = Some 2.
Proof. split; vm_compute; reflexivity. Qed.

(** ** Random draws *)

Lemma uniform_int_distribution_range (a b : Z) (gen : Gen) :
  a ≤ b → a ≤ (uniform_int_distribution a b gen).1 ≤ b.
Proof.
  intros Hab. unfold uniform_int_distribution, gen_next. simpl.
  pose proof (Z.mod_pos_bound (gen 0%nat) (b - a + 1)). lia.
Qed.

(** Every value of the range is drawn by some generator. *)
Lemma uniform_int_distribution_onto (a b k : Z) :
  a ≤ k ≤ b → (uniform_int_distribution a b (constant_gen (k - a))).1 = k.
Proof.
  intros Hk. unfold uniform_int_distribution, gen_next, constant_gen. simpl.
  rewrite Z.mod_small by lia. lia.
Qed.

Lemma Direction_of_int_valid (n : Z) :
  0 ≤ n ≤ 4 → ∃ d, Direction_of_int n = Some d.
Proof.
  intros Hn.
  assert (n = 0 ∨ n = 1 ∨ n = 2 ∨ n = 3 ∨ n = 4) as Hcases by lia.
  destruct Hcases as [->|[->|[->|[->| ->]]]]; simpl; eauto.
Qed.

(** ** Crossover *)

(** [std::copy] overwrites exactly the indices [i .. i+count-1]. *)
Lemma std_copy_lookup {A : Type} (src : list A) (count : nat) :
  ∀ (dst : list A) (i : nat),
    (i + count ≤ length src)%nat → (i + count ≤ length dst)%nat →
    ∃ r, std_copy src dst (Z.of_nat i) count = Some r
         ∧ length r = length dst
         ∧ ∀ j, r !! j = if decide (i ≤ j < i + count)%nat then src !! j else dst !! j.
Proof.
  induction count as [|count IH]; intros dst i Hsrc Hdst.
  - exists dst. repeat split. intros j. case_decide; [lia|done].
  - simpl. rewrite vec_at_lookup.
    destruct (lookup_lt_is_Some_2 src i) as [a Ha]; [lia|].
    rewrite Ha. simpl.
    rewrite vec_set_Some, Nat2Z.id by lia. simpl.
    replace (Z.of_nat i + 1) with (Z.of_nat (S i)) by lia.
    destruct (IH (<[i := a]> dst) (S i)) as (r & Hr & Hlen & Hlook).
    { lia. } { rewrite length_insert. lia. }
    exists r. split; [done|]. split; [by rewrite Hlen, length_insert|].
    intros j. rewrite Hlook, list_lookup_insert.
    repeat case_decide; destruct_and?; subst; try lia; done.
Qed.

Lemma crossover_at_splice (parentA parentB : Genome) (k : Z) :
  length parentA = length parentB → 0 ≤ k ≤ Z.of_nat (length parentB) →
  crossover_at k parentA parentB
  = Some (take (Z.to_nat k) parentA ++ drop (Z.to_nat k) parentB).
Proof.
  intros Hlen Hk. unfold crossover_at.
  rewrite bool_decide_eq_true_2 by done.
  rewrite <- (Z2Nat.id k) at 1 by lia.
  assert (Z.to_nat k ≤ length parentB)%nat as Hkn by lia.
  generalize dependent (Z.to_nat k). intros kn Hkn.
  destruct (std_copy_lookup parentB (length parentB - kn) parentA kn)
    as (r & -> & Hr & Hlook); [lia..|].
  f_equal. apply list_eq. intros j. rewrite Hlook.
  rewrite lookup_app, lookup_take, length_take, lookup_drop.
  replace (Init.Nat.min kn (length parentA)) with kn by lia.
  destruct (decide (j < kn)%nat) as [Hlt|Hge].
  - rewrite decide_False by lia.
    destruct (parentA !! j) eqn:Hj; [done|].
    apply lookup_ge_None in Hj. lia.
  - destruct (decide (j < length parentB)%nat) as [Hin|Hout].
    + rewrite decide_True by lia. f_equal. lia.
    + rewrite decide_False by lia.
      rewrite (lookup_ge_None_2 parentA) by lia.
      rewrite (lookup_ge_None_2 parentB) by lia. done.
Qed.

(** Scenario 3 of the specification. *)
Example scenario_crossover :
  crossover_at 2 [UP; UP; UP; UP] [DOWN; DOWN; DOWN; DOWN] = Some [UP; UP; DOWN; DOWN].
Proof. reflexivity. Qed.

(** C5: for parents of length L and a split point k in [0, L-1] the child
    has length L, agrees with parentA on its first k elements and with
    parentB from index k on; for L = [GENOME_LENGTH], [crossover] draws
    its split point in [0, L-1] and returns that child, and every split
    point of the range is drawn by some generator. *)
Theorem crossover_single_point (parentA parentB : Genome) (L : nat) :
  length parentA = L → length parentB = L →
  (∀ k, 0 ≤ k ≤ Z.of_nat L - 1 →
     ∃ child,
       crossover_at k parentA parentB = Some child
       ∧ length child = L
       ∧ take (Z.to_nat k) child = take (Z.to_nat k) parentA
       ∧ drop (Z.to_nat k) child = drop (Z.to_nat k) parentB
       ∧ ∀ i, (Z.to_nat k ≤ i < L)%nat → child !! i = parentB !! i)
  ∧ (Z.of_nat L = Config.GENOME_LENGTH →
     (∀ gen, ∃ k child gen',
        0 ≤ k ≤ Z.of_nat L - 1
        ∧ crossover_at k parentA parentB = Some child
        ∧ crossover parentA parentB gen = Some (child, gen'))
     ∧ (∀ k, 0 ≤ k ≤ Z.of_nat L - 1 →
          fst <$> crossover parentA parentB (constant_gen k)
          = crossover_at k parentA parentB)).
Proof.
  intros HA HB. split.
  - intros k Hk.
    exists (take (Z.to_nat k) parentA ++ drop (Z.to_nat k) parentB).
    split; [apply crossover_at_splice; lia|].
    assert (length (take (Z.to_nat k) parentA) = Z.to_nat k) as Htake
      by (rewrite length_take; lia).
    split; [rewrite length_app, Htake, length_drop; lia|].
    split; [by rewrite take_app_length'|].
    split; [by rewrite drop_app_length'|].
    intros i Hi. rewrite lookup_app_r, Htake, lookup_drop by lia.
    f_equal. lia.
  - intros HL. split.
    + intros gen. unfold crossover.
      pose proof (uniform_int_distribution_range 0 (Config.GENOME_LENGTH - 1) gen) as Hr.
      destruct (uniform_int_distribution 0 (Config.GENOME_LENGTH - 1) gen) as [k gen'].
      simpl in Hr.
      exists k, (take (Z.to_nat k) parentA ++ drop (Z.to_nat k) parentB), gen'.
      assert (crossover_at k parentA parentB
              = Some (take (Z.to_nat k) parentA ++ drop (Z.to_nat k) parentB)) as ->.
      { apply crossover_at_splice; unfold Config.GENOME_LENGTH in *; lia. }
      split; [unfold Config.GENOME_LENGTH in *; lia|done].
    + intros k Hk. unfold crossover.
      pose proof (uniform_int_distribution_onto 0 (Config.GENOME_LENGTH - 1) k) as Hdraw.
      rewrite Z.sub_0_r in Hdraw.
      destruct (uniform_int_distribution 0 (Config.GENOME_LENGTH - 1) (constant_gen k))
        as [k' gen'].
      simpl in Hdraw. rewrite Hdraw by lia.
      by destruct (crossover_at k parentA parentB).
Qed.

Lemma crossover_single_point_witness :
  (∀ k, 0 ≤ k ≤ Z.of_nat 100 - 1 →
     ∃ child,
       crossover_at k stand_genome right_genome = Some child
       ∧ length child = 100%nat
       ∧ take (Z.to_nat k) child = take (Z.to_nat k) stand_genome
       ∧ drop (Z.to_nat k) child = drop (Z.to_nat k) right_genome
       ∧ ∀ i, (Z.to_nat k ≤ i < 100)%nat → child !! i = right_genome !! i)
  ∧ (Z.of_nat 100 = Config.GENOME_LENGTH →
     (∀ gen, ∃ k child gen',
        0 ≤ k ≤ Z.of_nat 100 - 1
        ∧ crossover_at k stand_genome right_genome = Some child
        ∧ crossover stand_genome right_genome gen = Some (child, gen'))
     ∧ (∀ k, 0 ≤ k ≤ Z.of_nat 100 - 1 →
          fst <$> crossover stand_genome right_genome (constant_gen k)
          = crossover_at k stand_genome right_genome)).
Proof.
  apply (crossover_single_point stand_genome right_genome 100); reflexivity.
Defined.

(** ** Mutation *)

(** Scenario 4 of the specification. *)
Example scenario_mutation :
  mutate_at 2 RIGHT [STAND; STAND; STAND; STAND] = Some [STAND; STAND; RIGHT; STAND].
Proof. reflexivity. Qed.

(** C4 (as stated, refuted): a genome of length [GENOME_LENGTH] that
    [mutate] returns identical to its input, because the move drawn is
    the move already at the drawn locus. *)
Lemma mutate_may_return_input :
  Z.of_nat (length stand_genome) = Config.GENOME_LENGTH
  ∧ fst <$> mutate stand_genome (constant_gen 4) = Some stand_genome.
Proof. split; reflexivity. Qed.

(** The two draws of [mutate] and what it does with them. *)
Lemma mutate_draws (genome : Genome) (gen : Gen) :
  Z.of_nat (length genome) = Config.GENOME_LENGTH →
  ∃ p n d gen1 gen',
    uniform_int_distribution 0 (Config.GENOME_LENGTH - 1) gen = (p, gen1)
    ∧ uniform_int_distribution 0 4 gen1 = (n, gen')
    ∧ Direction_of_int n = Some d
    ∧ 0 ≤ p ≤ Config.GENOME_LENGTH - 1
    ∧ mutate genome gen = Some (<[Z.to_nat p := d]> genome, gen').
Proof.
  intros Hlen. unfold mutate.
  pose proof (uniform_int_distribution_range 0 (Config.GENOME_LENGTH - 1) gen) as Hp.
  destruct (uniform_int_distribution 0 (Config.GENOME_LENGTH - 1) gen) as [p gen1].
  pose proof (uniform_int_distribution_range 0 4 gen1) as Hn.
  destruct (uniform_int_distribution 0 4 gen1) as [n gen2] eqn:Hdraw.
  simpl in Hp, Hn.
  assert (0 ≤ p ≤ Config.GENOME_LENGTH - 1) as Hp' by (apply Hp; done).
  destruct (Direction_of_int_valid n) as [d Hd]; [lia|].
  rewrite Hd. simpl. unfold mutate_at.
  rewrite vec_set_Some by lia. simpl.
  exists p, n, d, gen1, gen2. repeat split; (done || lia).
Qed.

Lemma mutate_writes (genome : Genome) (gen : Gen) :
  Z.of_nat (length genome) = Config.GENOME_LENGTH →
  ∃ p d gen',
    0 ≤ p ≤ Config.GENOME_LENGTH - 1
    ∧ mutate genome gen = Some (<[Z.to_nat p := d]> genome, gen').
Proof.
  intros Hlen.
  destruct (mutate_draws genome gen Hlen) as (p & n & d & gen1 & gen' & _ & _ & _ & Hp & Hm).
  by exists p, d, gen'.
Qed.

Lemma Direction_of_int_of_Direction (d : Direction) :
  Direction_of_int (int_of_Direction d) = Some d ∧ 0 ≤ int_of_Direction d ≤ 4.
Proof. destruct d; simpl; split; (reflexivity || lia). Qed.

(** Every locus and every move is drawn by some generator. *)
Lemma mutate_reaches (genome : Genome) (p : Z) (d : Direction) :
  0 ≤ p ≤ Config.GENOME_LENGTH - 1 →
  mutate genome (two_draws p (int_of_Direction d))
  = genome' ← mutate_at p d genome;
    Some (genome', constant_gen (int_of_Direction d)).
Proof.
  intros Hp. unfold mutate.
  assert (uniform_int_distribution 0 (Config.GENOME_LENGTH - 1)
            (two_draws p (int_of_Direction d))
          = (p, constant_gen (int_of_Direction d))) as ->.
  { unfold uniform_int_distribution, gen_next. cbn [two_draws].
    rewrite Z.mod_small by (unfold Config.GENOME_LENGTH in *; lia).
    reflexivity. }
  destruct (Direction_of_int_of_Direction d) as [Hd Hr].
  assert (uniform_int_distribution 0 4 (constant_gen (int_of_Direction d))
          = (int_of_Direction d, constant_gen (int_of_Direction d))) as ->.
  { unfold uniform_int_distribution, gen_next, constant_gen.
    rewrite Z.mod_small by lia. reflexivity. }
  by rewrite Hd.
Qed.

(** C4 (amended): for a genome of length [GENOME_LENGTH], [mutate] draws
    a locus p in [0, GENOME_LENGTH-1], then the number n of a move d of
    the five-element alphabet, and overwrites locus p with d; the length
    and every other locus are unchanged, so at most one locus differs,
    and the output equals the input exactly when d is the move already
    at p.  Every locus of the range and every move is drawn by some
    generator. *)
Theorem mutate_overwrites_one_locus (genome : Genome) :
  Z.of_nat (length genome) = Config.GENOME_LENGTH →
  (∀ gen, ∃ p n d gen1 gen' genome',
     uniform_int_distribution 0 (Config.GENOME_LENGTH - 1) gen = (p, gen1)
     ∧ uniform_int_distribution 0 4 gen1 = (n, gen')
     ∧ Direction_of_int n = Some d
     ∧ 0 ≤ p ≤ Config.GENOME_LENGTH - 1
     ∧ d ∈ [UP; DOWN; LEFT; RIGHT; STAND]
     ∧ mutate genome gen = Some (genome', gen')
     ∧ length genome' = length genome
     ∧ genome' !! Z.to_nat p = Some d
     ∧ (∀ j, j ≠ Z.to_nat p → genome' !! j = genome !! j)
     ∧ (genome' = genome ↔ genome !! Z.to_nat p = Some d))
  ∧ (∀ p d, 0 ≤ p ≤ Config.GENOME_LENGTH - 1 →
       ∃ gen, fst <$> mutate genome gen = Some (<[Z.to_nat p := d]> genome)).
Proof.
  intros Hlen. split.
  - intros gen.
    destruct (mutate_draws genome gen Hlen)
      as (p & n & d & gen1 & gen' & Hd1 & Hd2 & Hd & Hp & Hm).
    assert (Z.to_nat p < length genome)%nat as Hlt by lia.
    exists p, n, d, gen1, gen', (<[Z.to_nat p := d]> genome).
    split; [exact Hd1|]. split; [exact Hd2|]. split; [exact Hd|].
    split; [exact Hp|]. split; [destruct d; repeat constructor|].
    split; [exact Hm|]. split; [apply length_insert|].
    split; [by apply list_lookup_insert_eq|].
    split; [intros j Hj; by apply list_lookup_insert_ne|].
    split.
    + intros Heq. rewrite <- Heq. by apply list_lookup_insert_eq.
    + apply list_insert_id.
  - intros p d Hp. exists (two_draws p (int_of_Direction d)).
    rewrite (mutate_reaches genome p d Hp). unfold mutate_at.
    rewrite vec_set_Some by lia. reflexivity.
Qed.

Lemma mutate_overwrites_one_locus_witness :
  (∀ gen, ∃ p n d gen1 gen' genome',
     uniform_int_distribution 0 (Config.GENOME_LENGTH - 1) gen = (p, gen1)
     ∧ uniform_int_distribution 0 4 gen1 = (n, gen')
     ∧ Direction_of_int n = Some d
     ∧ 0 ≤ p ≤ Config.GENOME_LENGTH - 1
     ∧ d ∈ [UP; DOWN; LEFT; RIGHT; STAND]
     ∧ mutate stand_genome gen = Some (genome', gen')
     ∧ length genome' = length stand_genome
     ∧ genome' !! Z.to_nat p = Some d
     ∧ (∀ j, j ≠ Z.to_nat p → genome' !! j = stand_genome !! j)
     ∧ (genome' = stand_genome ↔ stand_genome !! Z.to_nat p = Some d))
  ∧ (∀ p d, 0 ≤ p ≤ Config.GENOME_LENGTH - 1 →
       ∃ gen, fst <$> mutate stand_genome gen
              = Some (<[Z.to_nat p := d]> stand_genome)).
Proof.
  apply (mutate_overwrites_one_locus stand_genome); reflexivity.
Defined.

(** ** Thread pool *)

(** C7 (as stated, refuted): on a pool whose shutdown has been requested
    (the destructor has set [stop], its four workers are not yet joined)
    [enqueue] returns a future and the work item is in the queue; nothing
    fails, and a worker that goes through its loop takes the item and
    runs it. *)
Lemma enqueue_after_stop_request_enqueues :
  ThreadPool.stop (ThreadPool.request_stop (ThreadPool.create (Store := list Z) 4))
  = true
  ∧ ThreadPool.enqueue noop (ThreadPool.request_stop (ThreadPool.create 4))
    = ({| ThreadPool.workers := 4; ThreadPool.tasks := [noop];
          ThreadPool.stop := true; ThreadPool.submitted := 1 |}, 0%nat)
  ∧ ThreadPool.worker_iteration
      (ThreadPool.enqueue noop (ThreadPool.request_stop (ThreadPool.create 4))).1 [7]
    = ThreadPool.Ran
        {| ThreadPool.workers := 4; ThreadPool.tasks := [];
           ThreadPool.stop := true; ThreadPool.submitted := 1 |}
        (Some [7]).
Proof. repeat split. Qed.

(** C7 (amended): [enqueue] does not look at the stop flag.  Whatever the
    state of the pool it appends the work item to the queue and returns a
    future, leaving the flag and the workers as they are.  So it is also
    once shutdown has been requested: the item is queued behind the items
    already there, a worker that goes through its loop does not return
    but takes the item at the front, and when the queue was empty that is
    the new item, which it runs. *)
Theorem enqueue_ignores_stop {Store : Type} (pool : ThreadPool.t Store)
    (f : ThreadPool.Task Store) :
  (ThreadPool.enqueue f pool).2 = ThreadPool.submitted pool
  ∧ ThreadPool.tasks (ThreadPool.enqueue f pool).1 = ThreadPool.tasks pool ++ [f]
  ∧ ThreadPool.stop (ThreadPool.enqueue f pool).1 = ThreadPool.stop pool
  ∧ ThreadPool.workers (ThreadPool.enqueue f pool).1 = ThreadPool.workers pool
  ∧ ThreadPool.stop (ThreadPool.enqueue f (ThreadPool.request_stop pool)).1 = true
  ∧ ThreadPool.tasks (ThreadPool.enqueue f (ThreadPool.request_stop pool)).1
    = ThreadPool.tasks pool ++ [f]
  ∧ (∀ s, ∃ task rest,
       ThreadPool.tasks pool ++ [f] = task :: rest
       ∧ ThreadPool.worker_iteration
           (ThreadPool.enqueue f (ThreadPool.request_stop pool)).1 s
         = ThreadPool.Ran
             {| ThreadPool.workers := ThreadPool.workers pool;
                ThreadPool.tasks := rest;
                ThreadPool.stop := true;
                ThreadPool.submitted := S (ThreadPool.submitted pool) |}
             (task s))
  ∧ (ThreadPool.tasks pool = [] →
     ∀ s, ThreadPool.worker_iteration
            (ThreadPool.enqueue f (ThreadPool.request_stop pool)).1 s
          = ThreadPool.Ran
              {| ThreadPool.workers := ThreadPool.workers pool;
                 ThreadPool.tasks := [];
                 ThreadPool.stop := true;
                 ThreadPool.submitted := S (ThreadPool.submitted pool) |}
              (f s)).
Proof.
  split; [reflexivity|]. split; [reflexivity|].
  split; [reflexivity|]. split; [reflexivity|].
  split; [reflexivity|]. split; [reflexivity|].
  split.
  - intros s. unfold ThreadPool.worker_iteration, ThreadPool.enqueue,
      ThreadPool.request_stop.
    cbn [fst ThreadPool.tasks ThreadPool.workers ThreadPool.stop ThreadPool.submitted].
    destruct (ThreadPool.tasks pool) as [|task rest]; cbn [app].
    + by exists f, [].
    + by exists task, (rest ++ [f]).
  - intros Hq s. unfold ThreadPool.worker_iteration, ThreadPool.enqueue,
      ThreadPool.request_stop.
    cbn [fst ThreadPool.tasks ThreadPool.workers ThreadPool.stop ThreadPool.submitted].
    rewrite Hq. reflexivity.
Qed.

(** ** Selection comparator *)

(** The verdict on a pair of genomes depends on where they currently
    sit: before the exchange of the elements at [i] and [j] the pair
    [(a, b)] is judged by [fitness[i] < fitness[j]], after it by
    [fitness[j] < fitness[i]]. *)
Lemma compare_at_exchange (fit : list Z) (pop : list Genome) (i j : nat)
    (a b : Genome) :
  pop !! i = Some a → pop !! j = Some b → i ≠ j →
  compare_at fit pop i j
    = (verdict ← selection_less fit (Z.of_nat i) (Z.of_nat j); Some (a, b, verdict))
  ∧ compare_at fit (exchange i j pop) j i
    = (verdict ← selection_less fit (Z.of_nat j) (Z.of_nat i); Some (a, b, verdict)).
Proof.
  intros Ha Hb Hne. unfold compare_at, exchange. rewrite Ha, Hb. simpl.
  split; [done|].
  apply lookup_lt_Some in Ha as Hi. apply lookup_lt_Some in Hb as Hj.
  rewrite (list_lookup_insert_ne _ i j) by done.
  rewrite (list_lookup_insert_eq pop j) by done.
  rewrite list_lookup_insert_eq by (by rewrite length_insert).
  done.
Qed.

(** C2 (evaluation at the failing input): the table [main] computes for
    [unsorted_population] is [unsorted_fitness]; before any move the
    comparator rightly ranks [right_genome] (cost 39, offset 1) below
    [stand_genome] (cost 40, offset 0); once the sort has exchanged the
    two, the table, which is not reordered, holds 40 at the offset of the
    cost-39 genome and 39 at the offset of the cost-40 genome, and the
    comparator called on the same two genomes ranks [stand_genome] below
    [right_genome]. *)
Theorem selection_reads_fitness_by_position :
  snd <$> evaluate_phase (ThreadPool.create 4) unsorted_population
            (replicate 100 0) main_maze = Some unsorted_fitness
  ∧ compare_at unsorted_fitness unsorted_population 1 0
    = Some (right_genome, stand_genome, true)
  ∧ exchange 0 1 unsorted_population !! 0%nat = Some right_genome
  ∧ evaluateFitness Config.MAZE_SIZE right_genome main_maze = Some 39
  ∧ unsorted_fitness !! 0%nat = Some 40
  ∧ exchange 0 1 unsorted_population !! 1%nat = Some stand_genome
  ∧ evaluateFitness Config.MAZE_SIZE stand_genome main_maze = Some 40
  ∧ unsorted_fitness !! 1%nat = Some 39
  ∧ compare_at unsorted_fitness (exchange 0 1 unsorted_population) 0 1
    = Some (right_genome, stand_genome, false)
  ∧ compare_at unsorted_fitness (exchange 0 1 unsorted_population) 1 0
    = Some (stand_genome, right_genome, true).
Proof. repeat split; vm_compute; reflexivity. Qed.

(** ** Evaluation phase *)

Lemma submit_all_queue (pop : list Genome) (maze : Maze) (count : nat) :
  ∀ (i : nat) (p : ThreadPool.t (list Z)) (futures : list nat),
    ThreadPool.tasks (submit_all pop maze (Z.of_nat i) count p futures).1
      = ThreadPool.tasks p ++ task_list pop maze i count
    ∧ ThreadPool.workers (submit_all pop maze (Z.of_nat i) count p futures).1
      = ThreadPool.workers p
    ∧ ThreadPool.stop (submit_all pop maze (Z.of_nat i) count p futures).1
      = ThreadPool.stop p.
Proof.
  induction count as [|count IH]; intros i p futures.
  - simpl. by rewrite app_nil_r.
  - simpl. replace (Z.of_nat i + 1) with (Z.of_nat (S i)) by lia.
    destruct (IH (S i)
      {| ThreadPool.workers := ThreadPool.workers p;
         ThreadPool.tasks := ThreadPool.tasks p ++ [fitness_task pop maze (Z.of_nat i)];
         ThreadPool.stop := ThreadPool.stop p;
         ThreadPool.submitted := S (ThreadPool.submitted p) |}
      (futures ++ [ThreadPool.submitted p])) as (Ht & Hw & Hs).
    rewrite Ht, Hw, Hs. simpl. by rewrite <- app_assoc.
Qed.

(** The workers run the queue in FIFO order and leave it empty. *)
Lemma run_workers_run_list {Store : Type} (ts : list (ThreadPool.Task Store)) :
  ∀ (p : ThreadPool.t Store) (s : Store),
    ThreadPool.tasks p = ts →
    ThreadPool.run_workers (length ts) p s
    = s' ← run_list ts s;
      Some ({| ThreadPool.workers := ThreadPool.workers p; ThreadPool.tasks := [];
               ThreadPool.stop := ThreadPool.stop p;
               ThreadPool.submitted := ThreadPool.submitted p |}, s').
Proof.
  induction ts as [|task ts IH]; intros p s Hts.
  - destruct p. simpl in *. by subst.
  - simpl. unfold ThreadPool.worker_iteration. rewrite Hts.
    destruct (task s) as [s'|]; [|done]. simpl.
    by rewrite IH.
Qed.

Lemma evaluateFitness_main_maze (genome : Genome) :
  is_Some (evaluateFitness Config.MAZE_SIZE genome main_maze).
Proof.
  destruct (walk_simulates Config.MAZE_SIZE main_maze genome) with (x := 0) (y := 0)
    as (fx & fy & reads & Hw & _); [reflexivity|by vm_compute|].
  unfold evaluateFitness. rewrite Hw. by eexists.
Qed.

Lemma fitness_task_writes (pop : list Genome) (maze : Maze) (i : nat)
    (fit : list Z) (g : Genome) (c : Z) :
  pop !! i = Some g → evaluateFitness Config.MAZE_SIZE g maze = Some c →
  (i < length fit)%nat →
  fitness_task pop maze (Z.of_nat i) fit = Some (<[i := c]> fit).
Proof.
  intros Hg Hc Hi. unfold fitness_task.
  rewrite vec_at_lookup, Hg. simpl. rewrite Hc. simpl.
  by rewrite vec_set_Some, Nat2Z.id by lia.
Qed.

Lemma run_list_task_list (pop : list Genome) (count : nat) :
  ∀ (i : nat) (fit : list Z),
    (i + count ≤ length pop)%nat → (i + count ≤ length fit)%nat →
    ∃ fit',
      run_list (task_list pop main_maze i count) fit = Some fit'
      ∧ length fit' = length fit
      ∧ ∀ j, fit' !! j
             = if decide (i ≤ j < i + count)%nat
               then pop !! j ≫= λ g, evaluateFitness Config.MAZE_SIZE g main_maze
               else fit !! j.
Proof.
  induction count as [|count IH]; intros i fit Hpop Hfit.
  - exists fit. repeat split. intros j. case_decide; [lia|done].
  - destruct (lookup_lt_is_Some_2 pop i) as [g Hg]; [lia|].
    destruct (evaluateFitness_main_maze g) as [c Hc].
    change (task_list pop main_maze i (S count))
      with (fitness_task pop main_maze (Z.of_nat i) :: task_list pop main_maze (S i) count).
    simpl. rewrite (fitness_task_writes pop main_maze i fit g c) by (done || lia).
    simpl.
    destruct (IH (S i) (<[i := c]> fit)) as (fit' & Hrun & Hlen & Hlook).
    { lia. } { rewrite length_insert. lia. }
    exists fit'. split; [exact Hrun|]. split; [by rewrite Hlen, length_insert|].
    intros j. rewrite Hlook, list_lookup_insert.
    destruct (decide (i = j)) as [<-|Hne].
    + rewrite decide_False, decide_True, decide_True by lia.
      by rewrite Hg.
    + destruct (decide (S i ≤ j < S i + count)%nat).
      * by rewrite decide_True by lia.
      * rewrite (decide_False (P := (i = j ∧ _))) by (intros [? _]; done).
        by rewrite decide_False by lia.
Qed.

Lemma evaluate_phase_table (p : ThreadPool.t (list Z)) (pop : list Genome) (fit : list Z) :
  ThreadPool.tasks p = [] → (0 < ThreadPool.workers p)%nat →
  Z.of_nat (length pop) = Config.POPULATION_SIZE →
  Z.of_nat (length fit) = Config.POPULATION_SIZE →
  ∃ p' fit',
    evaluate_phase p pop fit main_maze = Some (p', fit')
    ∧ ThreadPool.tasks p' = [] ∧ ThreadPool.workers p' = ThreadPool.workers p
    ∧ Z.of_nat (length fit') = Config.POPULATION_SIZE
    ∧ fitness_table pop = Some fit'.
Proof.
  intros Hq Hw Hpop Hfit. unfold evaluate_phase.
  pose proof (submit_all_queue pop main_maze (Z.to_nat Config.POPULATION_SIZE)
                0 p []) as (Ht & Hw' & Hs).
  change (Z.of_nat 0) with 0 in *.
  destruct (submit_all pop main_maze 0 (Z.to_nat Config.POPULATION_SIZE) p [])
    as [p1 futures]. simpl in Ht, Hw', Hs.
  rewrite Hq in Ht. simpl in Ht.
  unfold ThreadPool.get_all. rewrite Hw'.
  rewrite bool_decide_eq_true_2 by done.
  rewrite (run_workers_run_list _ p1 fit eq_refl).
  rewrite Ht.
  destruct (run_list_task_list pop (Z.to_nat Config.POPULATION_SIZE) 0 fit)
    as (fit' & Hrun & Hlen & Hlook); [lia..|].
  rewrite Hrun. simpl.
  eexists _, fit'. split; [reflexivity|]. simpl.
  split; [done|]. split; [done|]. split; [lia|].
  apply mapM_Some_2, Forall2_same_length_lookup_2; [lia|].
  intros j g c Hg Hc. rewrite Hlook in Hc.
  apply lookup_lt_Some in Hg as Hj.
  rewrite decide_True in Hc by lia.
  by rewrite Hg in Hc.
Qed.

Lemma fitness_table_lookup (pop : list Genome) (fit : list Z) :
  fitness_table pop = Some fit →
  length fit = length pop
  ∧ (∀ i g, pop !! i = Some g →
       ∃ c, fit !! i = Some c
            ∧ evaluateFitness Config.MAZE_SIZE g main_maze = Some c)
  ∧ (∀ c, c ∈ fit →
       ∃ g, g ∈ pop ∧ evaluateFitness Config.MAZE_SIZE g main_maze = Some c).
Proof.
  unfold fitness_table. intros Htab%mapM_Some_1.
  split; [symmetry; by eapply Forall2_length|]. split.
  - intros i g Hg. destruct (Forall2_lookup_l _ _ _ _ _ Htab Hg) as (c & Hc & He).
    by exists c.
  - intros c (i & Hi)%list_elem_of_lookup_1.
    destruct (Forall2_lookup_r _ _ _ _ _ Htab Hi) as (g & Hg & He).
    exists g. split; [by eapply list_elem_of_lookup_2|done].
Qed.

(** ** Next-generation assembly *)

Lemma crossover_total (parentA parentB : Genome) (gen : Gen) :
  Z.of_nat (length parentA) = Config.GENOME_LENGTH →
  Z.of_nat (length parentB) = Config.GENOME_LENGTH →
  ∃ child gen',
    crossover parentA parentB gen = Some (child, gen')
    ∧ Z.of_nat (length child) = Config.GENOME_LENGTH.
Proof.
  intros HA HB. unfold crossover.
  pose proof (uniform_int_distribution_range 0 (Config.GENOME_LENGTH - 1) gen) as Hr.
  destruct (uniform_int_distribution 0 (Config.GENOME_LENGTH - 1) gen) as [k gen'].
  simpl in Hr. assert (0 ≤ k ≤ Config.GENOME_LENGTH - 1) as Hk by (apply Hr; done).
  rewrite crossover_at_splice by lia. simpl.
  eexists _, _. split; [reflexivity|].
  rewrite length_app, length_take, length_drop. lia.
Qed.

Lemma mutate_total (genome : Genome) (gen : Gen) :
  Z.of_nat (length genome) = Config.GENOME_LENGTH →
  ∃ genome' gen',
    mutate genome gen = Some (genome', gen')
    ∧ Z.of_nat (length genome') = Config.GENOME_LENGTH.
Proof.
  intros Hlen.
  destruct (mutate_writes genome gen Hlen) as (p & d & gen' & _ & Hm).
  eexists _, _. split; [exact Hm|]. by rewrite length_insert.
Qed.

(** The assembly loop from index [i] for [count] more rounds appends, for
    each round, the elite and one mutated crossover child of the elite
    and its mirror partner. *)
Lemma assemble_interleaves (pop : list Genome) :
  Z.of_nat (length pop) = Config.POPULATION_SIZE → Forall genome_sized pop →
  ∀ (count i : nat) (acc : list Genome) (cgen mgen : Gen),
    (i + count ≤ 50)%nat →
    ∃ rest cgen' mgen',
      assemble pop (Z.of_nat i) count acc cgen mgen = Some (acc ++ rest, cgen', mgen')
      ∧ length rest = (2 * count)%nat
      ∧ Forall genome_sized rest
      ∧ ∀ j, (j < count)%nat →
          ∃ elite partner child,
            pop !! (i + j)%nat = Some elite
            ∧ pop !! (49 - (i + j))%nat = Some partner
            ∧ offspring elite partner child
            ∧ rest !! (2 * j)%nat = Some elite
            ∧ rest !! (2 * j + 1)%nat = Some child.
Proof.
  intros Hlen Hsized. unfold Config.POPULATION_SIZE in Hlen.
  induction count as [|count IH]; intros i acc cgen mgen Hi.
  - exists [], cgen, mgen. simpl. rewrite app_nil_r.
    repeat split; [constructor|]. intros j Hj. lia.
  - simpl. rewrite vec_at_lookup.
    destruct (lookup_lt_is_Some_2 pop i) as [elite He]; [lia|].
    rewrite He. simpl.
    replace (Config.POPULATION_SIZE ÷ 2 - Z.of_nat i - 1) with (Z.of_nat (49 - i))
      by (change (Config.POPULATION_SIZE ÷ 2) with 50; lia).
    rewrite vec_at_lookup.
    destruct (lookup_lt_is_Some_2 pop (49 - i)) as [partner Hp]; [lia|].
    rewrite Hp. simpl.
    destruct (crossover_total elite partner cgen) as (crossed & cgen1 & Hc & Hcl).
    { exact (Forall_lookup_1 _ _ _ _ Hsized He). }
    { exact (Forall_lookup_1 _ _ _ _ Hsized Hp). }
    rewrite Hc. simpl.
    destruct (mutate_total crossed mgen Hcl) as (child & mgen1 & Hm & Hml).
    rewrite Hm. simpl.
    replace (Z.of_nat i + 1) with (Z.of_nat (S i)) by lia.
    destruct (IH (S i) (acc ++ elite :: [child]) cgen1 mgen1)
      as (rest & cgen' & mgen' & Ha & Hrl & Hrs & Hrest); [lia|].
    exists (elite :: child :: rest), cgen', mgen'.
    split; [rewrite Ha; by rewrite <- app_assoc|].
    split; [simpl; lia|].
    split.
    { constructor; [exact (Forall_lookup_1 _ _ _ _ Hsized He)|].
      constructor; done. }
    intros [|j] Hj.
    + exists elite, partner, child.
      rewrite Nat.add_0_r. repeat split; try done.
      by exists cgen, cgen1, mgen, mgen1, crossed.
    + destruct (Hrest j) as (e & q & c & H1 & H2 & H3 & H4 & H5); [lia|].
      exists e, q, c.
      replace (i + S j)%nat with (S i + j)%nat by lia.
      split; [done|]. split; [done|]. split; [done|].
      change (elite :: child :: rest) with ([elite; child] ++ rest).
      rewrite !lookup_app_r by (simpl; lia).
      rewrite <- H4, <- H5. split; f_equal; simpl; lia.
Qed.

(** ** Smallest element *)

Lemma min_element_least (v : list Z) :
  v ≠ [] →
  ∃ m, min_element v = Some m ∧ m ∈ v ∧ ∀ c, c ∈ v → m ≤ c.
Proof.
  destruct v as [|a rest]; [done|]. intros _. simpl.
  eexists. split; [reflexivity|].
  revert a. induction rest as [|b rest IH]; intros a; simpl.
  - split; [constructor|]. intros c Hc.
    apply list_elem_of_singleton in Hc. lia.
  - destruct (Z.ltb_spec b a) as [Hlt|Hge].
    + destruct (IH b) as [Hin Hle]. split.
      * apply list_elem_of_further. exact Hin.
      * intros c Hc. apply elem_of_cons in Hc as [->|Hc].
        -- specialize (Hle b (list_elem_of_here _ _)). lia.
        -- by apply Hle.
    + destruct (IH a) as [Hin Hle]. split.
      * apply elem_of_cons in Hin as [Heq|Hin].
        -- rewrite Heq. constructor.
        -- apply list_elem_of_further, list_elem_of_further, Hin.
      * intros c Hc. apply elem_of_cons in Hc as [->|Hc]; [apply Hle; constructor|].
        apply elem_of_cons in Hc as [->|Hc].
        -- specialize (Hle a (list_elem_of_here _ _)). lia.
        -- apply Hle. by apply list_elem_of_further.
Qed.

(** ** The loop invariant *)

Lemma well_formed_inv (st : State) :
  well_formed st = true →
  Z.of_nat (length (population st)) = Config.POPULATION_SIZE
  ∧ Z.of_nat (length (fitness st)) = Config.POPULATION_SIZE
  ∧ Forall genome_sized (population st)
  ∧ ThreadPool.tasks (pool st) = []
  ∧ (0 < ThreadPool.workers (pool st))%nat.
Proof.
  unfold well_formed. intros H.
  repeat (apply andb_prop in H as [H ?]).
  repeat match goal with
    | H : bool_decide _ = true |- _ => apply bool_decide_eq_true in H
    end.
  repeat split; try done.
  - apply Forall_forall. intros g Hg.
    match goal with Hf : forallb _ _ = true |- _ => rewrite forallb_forall in Hf;
      apply list_elem_of_In, Hf, bool_decide_eq_true in Hg end.
    exact Hg.
  - by destruct (ThreadPool.tasks (pool st)).
Qed.

Lemma well_formed_intro (st : State) :
  Z.of_nat (length (population st)) = Config.POPULATION_SIZE →
  Z.of_nat (length (fitness st)) = Config.POPULATION_SIZE →
  Forall genome_sized (population st) →
  ThreadPool.tasks (pool st) = [] →
  (0 < ThreadPool.workers (pool st))%nat →
  well_formed st = true.
Proof.
  intros Hp Hf Hs Ht Hw. unfold well_formed.
  rewrite Ht, !bool_decide_eq_true_2 by done. simpl.
  rewrite !andb_true_r. apply forallb_forall. intros g Hg.
  apply bool_decide_eq_true_2.
  apply list_elem_of_In in Hg. rewrite Forall_forall in Hs. by apply Hs.
Qed.

Lemma generate_sized (n : nat) :
  ∀ gen, ∃ g gen', generate n gen = Some (g, gen') ∧ length g = n.
Proof.
  induction n as [|n IH]; intros gen; cbn [generate].
  - by exists [], gen.
  - pose proof (uniform_int_distribution_range 0 4 gen) as Hr.
    destruct (uniform_int_distribution 0 4 gen) as [r gen1]. simpl in Hr.
    destruct (Direction_of_int_valid r) as [d Hd]; [lia|].
    rewrite Hd. simpl.
    destruct (IH gen1) as (g & gen' & Hg & Hlen). rewrite Hg. simpl.
    exists (d :: g), gen'. split; [done|]. simpl. by rewrite Hlen.
Qed.

Lemma initial_population_sized (count : nat) :
  ∀ gen, ∃ pop gen',
    initial_population count gen = Some (pop, gen')
    ∧ length pop = count ∧ Forall genome_sized pop.
Proof.
  induction count as [|count IH]; intros gen; simpl.
  - exists [], gen. repeat split. constructor.
  - unfold generateRandomGenome.
    destruct (generate_sized (Z.to_nat Config.GENOME_LENGTH) gen)
      as (g & gen1 & Hg & Hlen).
    rewrite Hg. simpl.
    destruct (IH gen1) as (pop & gen' & Hpop & Hl & Hs). rewrite Hpop. simpl.
    exists (g :: pop), gen'. split; [done|]. split; [simpl; by rewrite Hl|].
    constructor; [|done]. unfold genome_sized. rewrite Hlen. done.
Qed.

Lemma main_init_well_formed (ggen cgen mgen : Gen) :
  ∃ st, main_init ggen cgen mgen = Some st ∧ well_formed st = true.
Proof.
  unfold main_init.
  destruct (initial_population_sized (Z.to_nat Config.POPULATION_SIZE) ggen)
    as (pop & gen' & Hpop & Hl & Hs).
  rewrite Hpop. simpl. eexists. split; [reflexivity|].
  apply well_formed_intro; simpl; try done.
  - rewrite Hl. done.
  - vm_compute. lia.
Qed.

Lemma assemble_population (elites : list Genome) (cgen mgen : Gen) :
  Z.of_nat (length elites) = Config.POPULATION_SIZE → Forall genome_sized elites →
  ∃ new_population cgen' mgen',
    assemble elites 0 (Z.to_nat (Config.POPULATION_SIZE ÷ 2)) [] cgen mgen
      = Some (new_population, cgen', mgen')
    ∧ Z.of_nat (length new_population) = Config.POPULATION_SIZE
    ∧ Forall genome_sized new_population
    ∧ ∀ i, (i < Z.to_nat (Config.POPULATION_SIZE ÷ 2))%nat →
        ∃ elite partner child,
          elites !! i = Some elite
          ∧ vec_at elites (Config.POPULATION_SIZE ÷ 2 - Z.of_nat i - 1) = Some partner
          ∧ offspring elite partner child
          ∧ new_population !! (2 * i)%nat = Some elite
          ∧ new_population !! (2 * i + 1)%nat = Some child.
Proof.
  intros Hlen Hs.
  destruct (assemble_interleaves elites Hlen Hs 50 0 [] cgen mgen)
    as (rest & cgen' & mgen' & Ha & Hl & Hrs & Hrest); [lia|].
  exists rest, cgen', mgen'. split; [exact Ha|].
  split; [rewrite Hl; done|]. split; [done|].
  intros i Hi. change (Z.to_nat (Config.POPULATION_SIZE ÷ 2)) with 50%nat in Hi.
  destruct (Hrest i Hi) as (e & q & c & H1 & H2 & H3 & H4 & H5).
  exists e, q, c. repeat split; try done.
  replace (Config.POPULATION_SIZE ÷ 2 - Z.of_nat i - 1) with (Z.of_nat (49 - i))
    by (change (Config.POPULATION_SIZE ÷ 2) with 50; lia).
  by rewrite vec_at_lookup.
Qed.

(** ** Lines 201-232 *)

Lemma reproduce_unfold (pool0 : ThreadPool.t (list Z)) (fitness0 : list Z)
    (selected : list Genome) (cgen mgen : Gen) new cgen' mgen' pool2 fitness2 best :
  assemble selected 0 (Z.to_nat (Config.POPULATION_SIZE ÷ 2)) [] cgen mgen
    = Some (new, cgen', mgen') →
  evaluate_phase pool0 new fitness0 main_maze = Some (pool2, fitness2) →
  min_element fitness2 = Some best →
  reproduce pool0 fitness0 selected cgen mgen
  = Some ({| population := new; fitness := fitness2; pool := pool2;
             crossover_gen := cgen'; mutate_gen := mgen' |}, best).
Proof.
  intros H1 H2 H3. unfold reproduce.
  apply bind_Some. exists (new, cgen', mgen'). split; [exact H1|].
  apply bind_Some. exists (pool2, fitness2). split; [exact H2|].
  apply bind_Some. exists best. split; [exact H3|].
  reflexivity.
Qed.

(** Lines 201-232 on a state that satisfies the loop invariant: they
    complete, the state they leave satisfies the invariant, its fitness
    table is the table of the new population, the value printed is the
    least entry of that table, and the new population interleaves the
    first half of the old vector with mutated crossover children. *)
Lemma reproduce_step (st : State) :
  well_formed st = true →
  ∃ st' best,
    reproduce (pool st) (fitness st) (population st) (crossover_gen st) (mutate_gen st)
      = Some (st', best)
    ∧ well_formed st' = true
    ∧ fitness_table (population st') = Some (fitness st')
    ∧ min_element (fitness st') = Some best
    ∧ best ∈ fitness st'
    ∧ (∀ c, c ∈ fitness st' → best ≤ c)
    ∧ (∀ i, (i < Z.to_nat (Config.POPULATION_SIZE ÷ 2))%nat →
        ∃ elite partner child,
          population st !! i = Some elite
          ∧ vec_at (population st) (Config.POPULATION_SIZE ÷ 2 - Z.of_nat i - 1)
            = Some partner
          ∧ offspring elite partner child
          ∧ population st' !! (2 * i)%nat = Some elite
          ∧ population st' !! (2 * i + 1)%nat = Some child)
    ∧ assemble (population st) 0 (Z.to_nat (Config.POPULATION_SIZE ÷ 2)) []
        (crossover_gen st) (mutate_gen st)
      = Some (population st', crossover_gen st', mutate_gen st').
Proof.
  intros (Hp & Hf & Hs & Ht & Hw)%well_formed_inv.
  destruct (assemble_population (population st) (crossover_gen st) (mutate_gen st) Hp Hs)
    as (new & cgen' & mgen' & Ha & Hnl & Hns & Hpairs).
  destruct (evaluate_phase_table (pool st) new (fitness st) Ht Hw Hnl Hf)
    as (p2 & fit2 & He2 & Ht2 & Hw2 & Hl2 & Htab).
  destruct (min_element_least fit2) as (best & Hmin & Hin & Hle).
  { intros ->. discriminate Hl2. }
  exists {| population := new; fitness := fit2; pool := p2;
            crossover_gen := cgen'; mutate_gen := mgen' |}, best.
  split; [exact (reproduce_unfold _ _ _ _ _ _ _ _ _ _ _ Ha He2 Hmin)|].
  split.
  { apply well_formed_intro;
      [exact Hnl | exact Hl2 | exact Hns | exact Ht2
      | change (0 < ThreadPool.workers p2)%nat; rewrite Hw2; exact Hw]. }
  split; [exact Htab|]. split; [exact Hmin|]. split; [exact Hin|].
  split; [exact Hle|]. split; [exact Hpairs|exact Ha].
Qed.

(** The evaluation at the top of an iteration keeps the invariant. *)
Lemma evaluate_phase_step (st : State) :
  well_formed st = true →
  ∃ pool1 fitness1,
    evaluate_phase (pool st) (population st) (fitness st) main_maze
      = Some (pool1, fitness1)
    ∧ fitness_table (population st) = Some fitness1
    ∧ well_formed {| population := population st; fitness := fitness1;
                     pool := pool1; crossover_gen := crossover_gen st;
                     mutate_gen := mutate_gen st |} = true.
Proof.
  intros (Hp & Hf & Hs & Ht & Hw)%well_formed_inv.
  destruct (evaluate_phase_table (pool st) (population st) (fitness st) Ht Hw Hp Hf)
    as (p1 & fit1 & He1 & Ht1 & Hw1 & Hl1 & Htab).
  exists p1, fit1. split; [exact He1|]. split; [exact Htab|].
  apply well_formed_intro;
    [exact Hp | exact Hl1 | exact Hs | exact Ht1
    | change (0 < ThreadPool.workers p1)%nat; rewrite Hw1; exact Hw].
Qed.

(** ** The generation loop *)

Lemma well_formed_rearranged (st : State) (selected : list Genome) :
  well_formed st = true → selected ≡ₚ population st →
  well_formed {| population := selected; fitness := fitness st; pool := pool st;
                 crossover_gen := crossover_gen st;
                 mutate_gen := mutate_gen st |} = true.
Proof.
  intros (Hp & Hf & Hs & Ht & Hw)%well_formed_inv Hsel.
  apply well_formed_intro.
  - change (Z.of_nat (length selected) = Config.POPULATION_SIZE).
    rewrite Hsel. exact Hp.
  - exact Hf.
  - change (Forall genome_sized selected). rewrite Hsel. exact Hs.
  - exact Ht.
  - exact Hw.
Qed.

Section DriverProperties.
Variable partial_sort :
  (Ref → Ref → option bool) → Z → list Genome → option (list Genome).

Lemma generation_eq (st : State) :
  generation partial_sort st
  = '(pool, fitness) ←
      evaluate_phase (pool st) (population st) (fitness st) main_maze;
    population ←
      partial_sort (selection_comp fitness) (Config.POPULATION_SIZE ÷ 2)
        (population st);
    reproduce pool fitness population (crossover_gen st) (mutate_gen st).
Proof. reflexivity. Qed.

Lemma generations_eq (count : nat) (st : State) :
  generations partial_sort (S count) st
  = '(st, best) ← generation partial_sort st;
    '(st, printed) ← generations partial_sort count st;
    Some (st, best :: printed).
Proof. reflexivity. Qed.

Lemma main_eq (ggen cgen mgen : Gen) :
  main partial_sort ggen cgen mgen
  = st ← main_init ggen cgen mgen;
    '(st, printed) ← generations partial_sort (Z.to_nat Config.GENERATIONS) st;
    '(_, _) ← ThreadPool.destroy (pool st) (fitness st);
    Some printed.
Proof. reflexivity. Qed.

(** What an iteration that completes has gone through. *)
Lemma generation_Some (st st' : State) (best : Z) :
  generation partial_sort st = Some (st', best) →
  ∃ pool1 fitness1 selected,
    evaluate_phase (pool st) (population st) (fitness st) main_maze
      = Some (pool1, fitness1)
    ∧ partial_sort (selection_comp fitness1) (Config.POPULATION_SIZE ÷ 2)
        (population st) = Some selected
    ∧ reproduce pool1 fitness1 selected (crossover_gen st) (mutate_gen st)
      = Some (st', best).
Proof.
  rewrite generation_eq. intros Hgen.
  apply bind_Some in Hgen as ([pool1 fitness1] & He & Hgen).
  apply bind_Some in Hgen as (selected & Hsel & Hgen).
  exists pool1, fitness1, selected.
  split; [exact He|]. split; [exact Hsel|exact Hgen].
Qed.

(** A library sort moves the elements of the vector about: when it
    returns, the vector is a rearrangement of what it was. *)
Hypothesis partial_sort_rearranges :
  ∀ comp middle v v', partial_sort comp middle v = Some v' → v' ≡ₚ v.

Lemma generation_invariant (st st' : State) (best : Z) :
  well_formed st = true →
  generation partial_sort st = Some (st', best) →
  well_formed st' = true.
Proof.
  intros Hwf Hgen.
  destruct (generation_Some st st' best Hgen)
    as (p1 & fit1 & selected & He1 & Hsel & Hr).
  destruct (evaluate_phase_step st Hwf) as (p1' & fit1' & He1' & _ & Hwf1).
  rewrite He1 in He1'. injection He1' as <- <-.
  apply partial_sort_rearranges in Hsel.
  pose proof (well_formed_rearranged _ selected Hwf1 Hsel) as Hwf2.
  destruct (reproduce_step _ Hwf2) as (st2 & best2 & Hr2 & Hwf' & _).
  change (reproduce p1 fit1 selected (crossover_gen st) (mutate_gen st)
          = Some (st2, best2)) in Hr2.
  rewrite Hr in Hr2. injection Hr2 as <- <-. exact Hwf'.
Qed.

Lemma generations_invariant (count : nat) :
  ∀ (st st' : State) (printed : list Z),
    well_formed st = true →
    generations partial_sort count st = Some (st', printed) →
    well_formed st' = true ∧ length printed = count.
Proof.
  induction count as [|count IH]; intros st st' printed Hwf Hrun.
  - injection Hrun as <- <-. split; [exact Hwf|reflexivity].
  - rewrite generations_eq in Hrun.
    apply bind_Some in Hrun as ([st1 best] & Hgen & Hrun).
    apply bind_Some in Hrun as ([st2 printed2] & Hrest & Hrun).
    injection Hrun as <- <-.
    destruct (IH st1 st2 printed2 (generation_invariant st st1 best Hwf Hgen) Hrest)
      as [Hwf2 Hlen].
    split; [exact Hwf2|]. cbn [length]. by rewrite Hlen.
Qed.
End DriverProperties.

(** ** The selection with libstdc++ *)

Section HeapFacts.
Context {A : Type}.
Variable hollow : A.
Variable comp : Ref → Ref → option bool.
(** A comparator that has no answer for a copy held outside the vector. *)
Hypothesis comp_local : ∀ a, comp a Local = None.

Lemma push_heap_undefined (fuel : nat) (v : list A) (holeIndex topIndex : Z)
    (value : A) :
  (holeIndex >? topIndex) = true →
  Libstdcxx.push_heap hollow comp fuel v holeIndex topIndex value
  = Libstdcxx.Undefined.
Proof.
  intros Hhole.
  destruct fuel; cbn [Libstdcxx.push_heap]; rewrite Hhole, comp_local; reflexivity.
Qed.

Lemma adjust_heap_loop_done (fuel : nat) (v : list A) (holeIndex secondChild len : Z) :
  (secondChild <? (len - 1) ÷ 2) = false →
  Libstdcxx.adjust_heap_loop hollow comp fuel v holeIndex secondChild len
  = Libstdcxx.Returns (v, holeIndex, secondChild).
Proof.
  intros Hlast.
  destruct fuel; cbn [Libstdcxx.adjust_heap_loop]; rewrite Hlast; reflexivity.
Qed.

Lemma move_element_finishes (v : list A) (to from : Z) :
  Libstdcxx.move_element hollow v to from ≠ Libstdcxx.Unfinished.
Proof.
  unfold Libstdcxx.move_element.
  destruct (vec_at v from) as [a|]; cbn [Libstdcxx.defined Libstdcxx.bind]; [|done].
  destruct (vec_set v from hollow) as [v1|];
    cbn [Libstdcxx.defined Libstdcxx.bind]; [|done].
  by destruct (vec_set v1 to a).
Qed.

Lemma move_out_finishes (v : list A) (from : Z) :
  Libstdcxx.move_out hollow v from ≠ Libstdcxx.Unfinished.
Proof.
  unfold Libstdcxx.move_out.
  destruct (vec_at v from) as [a|]; cbn [Libstdcxx.defined Libstdcxx.bind]; [|done].
  by destruct (vec_set v from hollow).
Qed.

Lemma make_heap_loop_eq (v : list A) (len : Z) (parent : nat) :
  Libstdcxx.make_heap_loop hollow comp v len parent
  = Libstdcxx.bind (Libstdcxx.move_out hollow v (Z.of_nat parent))
      (λ '(value, v),
         Libstdcxx.bind
           (Libstdcxx.adjust_heap hollow comp v (Z.of_nat parent) len value)
           (λ v, match parent with
                 | O => Libstdcxx.Returns v
                 | S parent => Libstdcxx.make_heap_loop hollow comp v len parent
                 end)).
Proof. destruct parent; reflexivity. Qed.

(** The first call of [__adjust_heap] in [__make_heap] on 50 elements:
    the hole at 24 has the single child 49, which is moved up, and
    [__push_heap] compares the parent of the hole with [value]. *)
Lemma adjust_heap_last_parent (v : list A) (value : A) :
  Libstdcxx.adjust_heap hollow comp v 24 50 value = Libstdcxx.Undefined.
Proof.
  unfold Libstdcxx.adjust_heap.
  rewrite adjust_heap_loop_done by reflexivity.
  cbn [Libstdcxx.bind].
  change ((Z.land 50 1 =? 0) && (24 =? (50 - 2) ÷ 2)) with true. cbv iota.
  change (2 * (24 + 1) - 1) with 49.
  pose proof (move_element_finishes v 24 49) as Hmove.
  destruct (Libstdcxx.move_element hollow v 24 49) as [v'| |];
    cbn [Libstdcxx.bind]; [|reflexivity|done].
  apply push_heap_undefined. reflexivity.
Qed.

Lemma partial_sort_undefined (v : list A) :
  Libstdcxx.partial_sort hollow comp 50 v = Libstdcxx.Undefined.
Proof.
  unfold Libstdcxx.partial_sort.
  destruct ((0 <=? 50) && (50 <=? Z.of_nat (length v))); [|reflexivity].
  unfold Libstdcxx.heap_select, Libstdcxx.make_heap.
  change (50 <? 2) with false. cbv iota.
  change (Z.to_nat ((50 - 2) ÷ 2)) with 24%nat.
  rewrite make_heap_loop_eq. change (Z.of_nat 24) with 24.
  pose proof (move_out_finishes v 24) as Hmove.
  destruct (Libstdcxx.move_out hollow v 24) as [[value v1]| |];
    cbn [Libstdcxx.bind]; [|reflexivity|done].
  rewrite adjust_heap_last_parent. reflexivity.
Qed.
End HeapFacts.

(** [__make_heap] starts at parent 24 of the first 50 elements: it moves
    element 24 into a variable of its own, [__adjust_heap] moves the only
    child, element 49, up, and [__push_heap] asks the comparator whether
    element 24 is less than that variable.  The variable is not an element
    of the vector, and the comparison is undefined. *)
Lemma partial_sort_selection_undefined (fit : list Z) (v : list Genome) :
  Libstdcxx.partial_sort [] (selection_comp fit) 50 v = Libstdcxx.Undefined.
Proof. apply partial_sort_undefined. intros a. by destruct a. Qed.

Lemma generation_undefined (st : State) :
  generation std_partial_sort st = None.
Proof.
  rewrite generation_eq.
  destruct (evaluate_phase (pool st) (population st) (fitness st) main_maze)
    as [[pool1 fitness1]|]; [|reflexivity].
  apply bind_None. right. exists (pool1, fitness1). split; [reflexivity|].
  apply bind_None. left. unfold std_partial_sort.
  change (Config.POPULATION_SIZE ÷ 2) with 50.
  by rewrite partial_sort_selection_undefined.
Qed.

Lemma generations_undefined (count : nat) (st : State) :
  generations std_partial_sort (S count) st = None.
Proof.
  rewrite generations_eq. apply bind_None. left. apply generation_undefined.
Qed.

Lemma main_undefined (ggen cgen mgen : Gen) :
  main std_partial_sort ggen cgen mgen = None.
Proof.
  rewrite main_eq.
  destruct (main_init ggen cgen mgen) as [st0|]; [|reflexivity].
  apply bind_None. right. exists st0. split; [reflexivity|].
  apply bind_None. left.
  change (Z.to_nat Config.GENERATIONS) with (S 999).
  apply generations_undefined.
Qed.

Lemma main_init_all_stand :
  main_init (constant_gen 4) (constant_gen 0) (constant_gen 3) = Some all_stand_state.
Proof. vm_compute. reflexivity. Qed.

(** C6: whatever the generators draw, [main] enters the loop with a
    population and a fitness table of [POPULATION_SIZE] entries; the
    evaluation at the top of an iteration keeps both sizes; lines 201-232,
    run on the [POPULATION_SIZE] genomes the selection has left, complete
    and leave a population and a table of exactly that size; so, for a
    library sort that only rearranges the vector when it returns, every
    state the loop reaches holds a population and a table of
    [POPULATION_SIZE] entries; and the assembly loop, run on
    [POPULATION_SIZE] genomes of the configured length, yields exactly
    [POPULATION_SIZE] genomes: elite i at index 2i and, at index 2i+1, a
    mutated crossover child of elite i and elite [POPULATION_SIZE/2 - i - 1]. *)
Theorem population_size_invariant :
  (∀ ggen cgen mgen : Gen,
     ∃ st0,
       main_init ggen cgen mgen = Some st0
       ∧ well_formed st0 = true
       ∧ Z.of_nat (length (population st0)) = Config.POPULATION_SIZE
       ∧ Z.of_nat (length (fitness st0)) = Config.POPULATION_SIZE)
  ∧ (∀ st, well_formed st = true →
       ∃ pool1 fitness1,
         evaluate_phase (pool st) (population st) (fitness st) main_maze
           = Some (pool1, fitness1)
         ∧ Z.of_nat (length fitness1) = Config.POPULATION_SIZE
         ∧ well_formed {| population := population st; fitness := fitness1;
                          pool := pool1; crossover_gen := crossover_gen st;
                          mutate_gen := mutate_gen st |} = true)
  ∧ (∀ st, well_formed st = true →
       ∃ st' best,
         reproduce (pool st) (fitness st) (population st)
           (crossover_gen st) (mutate_gen st) = Some (st', best)
         ∧ well_formed st' = true
         ∧ Z.of_nat (length (population st')) = Config.POPULATION_SIZE
         ∧ Z.of_nat (length (fitness st')) = Config.POPULATION_SIZE)
  ∧ (∀ partial_sort : (Ref → Ref → option bool) → Z → list Genome
                      → option (list Genome),
       (∀ comp middle v v', partial_sort comp middle v = Some v' → v' ≡ₚ v) →
       ∀ (ggen cgen mgen : Gen) (count : nat) st0 st printed,
         main_init ggen cgen mgen = Some st0 →
         generations partial_sort count st0 = Some (st, printed) →
         Z.of_nat (length (population st)) = Config.POPULATION_SIZE
         ∧ Z.of_nat (length (fitness st)) = Config.POPULATION_SIZE)
  ∧ (∀ (cgen mgen : Gen) (elites : list Genome),
       Z.of_nat (length elites) = Config.POPULATION_SIZE →
       Forall genome_sized elites →
       ∃ new_population cgen' mgen',
         assemble elites 0 (Z.to_nat (Config.POPULATION_SIZE ÷ 2)) [] cgen mgen
           = Some (new_population, cgen', mgen')
         ∧ Z.of_nat (length new_population) = Config.POPULATION_SIZE
         ∧ ∀ i, (i < Z.to_nat (Config.POPULATION_SIZE ÷ 2))%nat →
             ∃ elite partner child,
               elites !! i = Some elite
               ∧ vec_at elites (Config.POPULATION_SIZE ÷ 2 - Z.of_nat i - 1)
                 = Some partner
               ∧ offspring elite partner child
               ∧ new_population !! (2 * i)%nat = Some elite
               ∧ new_population !! (2 * i + 1)%nat = Some child).
Proof.
  split; [|split; [|split; [|split]]].
  - intros ggen cgen mgen.
    destruct (main_init_well_formed ggen cgen mgen) as (st0 & Hinit & Hwf0).
    exists st0. split; [exact Hinit|]. split; [exact Hwf0|].
    apply well_formed_inv in Hwf0 as (Hp0 & Hf0 & _). done.
  - intros st Hwf.
    destruct (evaluate_phase_step st Hwf) as (p1 & fit1 & He & _ & Hwf1).
    exists p1, fit1. split; [exact He|]. split; [|exact Hwf1].
    apply well_formed_inv in Hwf1 as (_ & Hf & _). exact Hf.
  - intros st Hwf.
    destruct (reproduce_step st Hwf) as (st' & best & Hr & Hwf' & _).
    exists st', best. split; [exact Hr|]. split; [exact Hwf'|].
    apply well_formed_inv in Hwf' as (Hp & Hf & _). done.
  - intros partial_sort Hperm ggen cgen mgen count st0 st printed Hinit Hrun.
    destruct (main_init_well_formed ggen cgen mgen) as (st0' & Hinit' & Hwf0).
    rewrite Hinit in Hinit'. injection Hinit' as <-.
    destruct (generations_invariant partial_sort Hperm count st0 st printed Hwf0 Hrun)
      as [Hwf _].
    apply well_formed_inv in Hwf as (Hp & Hf & _). done.
  - intros cgen mgen elites Hlen Hsized.
    destruct (assemble_population elites cgen mgen Hlen Hsized)
      as (new & cgen' & mgen' & Ha & Hl & _ & Hpairs).
    by exists new, cgen', mgen'.
Qed.

(** C9 (evaluation at the failing input): from the state [main] enters
    the loop with when all genomes stand still, the first evaluation
    fills the table with the cost 40 of every genome; the selection that
    follows, [std::partial_sort] of libstdc++ with the comparator of
    lines 191-193, is undefined at its first comparison with a copy held
    outside the vector, so the generation does not reach line 231 and
    [main] records no best fitness at all; it is so from every state and
    for every generator. *)
Theorem first_selection_undefined :
  main_init (constant_gen 4) (constant_gen 0) (constant_gen 3) = Some all_stand_state
  ∧ snd <$> evaluate_phase (pool all_stand_state) (population all_stand_state)
              (fitness all_stand_state) main_maze = Some (replicate 100 40)
  ∧ Libstdcxx.partial_sort [] (selection_comp (replicate 100 40))
      (Config.POPULATION_SIZE ÷ 2) (population all_stand_state)
    = Libstdcxx.Undefined
  ∧ generation std_partial_sort all_stand_state = None
  ∧ main std_partial_sort (constant_gen 4) (constant_gen 0) (constant_gen 3) = None
  ∧ (∀ st, generation std_partial_sort st = None)
  ∧ (∀ ggen cgen mgen, main std_partial_sort ggen cgen mgen = None).
Proof.
  split; [exact main_init_all_stand|].
  split; [vm_compute; reflexivity|].
  split; [exact (partial_sort_selection_undefined _ _)|].
  split; [exact (generation_undefined _)|].
  split; [exact (main_undefined _ _ _)|].
  split; [exact generation_undefined|exact main_undefined].
Qed.

(** Lines 201-232 on the all-standing population and the table of its
    evaluation: the value they yield, 39, is the least entry of the table
    they re-compute for the population they assemble; the table of the
    evaluated population has minimum 40. *)
Example reproduce_all_stand :
  min_element (replicate 100 40) = Some 40
  ∧ snd <$> reproduce (pool all_stand_state) (replicate 100 40)
              (population all_stand_state)
              (crossover_gen all_stand_state) (mutate_gen all_stand_state)
    = Some 39.
Proof. split; vm_compute; reflexivity. Qed.

(* ================================================================== *)
(** * Further properties of the program *)

(** ** Genome generation *)

Lemma generate_reaches (ms : list Direction) :
  ∀ gen : Gen,
    (∀ i d, ms !! i = Some d → gen i = int_of_Direction d) →
    ∃ gen', generate (length ms) gen = Some (ms, gen')
            ∧ ∀ k, gen' k = gen (length ms + k)%nat.
Proof.
  induction ms as [|d ms IH]; intros gen Hgen.
  - by exists gen.
  - cbn [length generate].
    assert (uniform_int_distribution 0 4 gen
            = (gen 0%nat `mod` 5, λ k, gen (S k))) as -> by reflexivity.
    rewrite (Hgen 0%nat d eq_refl).
    destruct (Direction_of_int_of_Direction d) as [Hd Hr].
    rewrite Z.mod_small by lia. rewrite Hd. cbn [mbind option_bind].
    destruct (IH (λ k, gen (S k))) as (gen' & Hg & Hnext).
    { intros i d' Hi. exact (Hgen (S i) d' Hi). }
    rewrite Hg. cbn [mbind option_bind].
    exists gen'. split; [reflexivity|]. intros k. by rewrite Hnext.
Qed.

Lemma gen_of_moves_lookup (ms : list Direction) (i : nat) (d : Direction) :
  ms !! i = Some d → gen_of_moves ms i = int_of_Direction d.
Proof. unfold gen_of_moves. by intros ->. Qed.

(** X1: for every generator, [generateRandomGenome] returns a genome of
    exactly [GENOME_LENGTH] moves; and every move can stand at every
    locus: for each locus and each move some generator yields a genome
    with that move there. *)
Theorem generateRandomGenome_covers_moves :
  (∀ gen, ∃ genome gen',
     generateRandomGenome gen = Some (genome, gen')
     ∧ Z.of_nat (length genome) = Config.GENOME_LENGTH)
  ∧ (∀ (i : nat) (d : Direction),
       Z.of_nat i < Config.GENOME_LENGTH →
       ∃ gen genome gen',
         generateRandomGenome gen = Some (genome, gen')
         ∧ genome !! i = Some d).
Proof.
  split.
  - intros gen. unfold generateRandomGenome.
    destruct (generate_sized (Z.to_nat Config.GENOME_LENGTH) gen)
      as (g & gen' & Hg & Hlen).
    exists g, gen'. split; [exact Hg|]. by rewrite Hlen.
  - intros i d Hi.
    destruct (generate_reaches (replicate (Z.to_nat Config.GENOME_LENGTH) d)
                (gen_of_moves (replicate (Z.to_nat Config.GENOME_LENGTH) d)))
      as (gen' & Hg & _).
    { apply gen_of_moves_lookup. }
    rewrite length_replicate in Hg.
    exists (gen_of_moves (replicate (Z.to_nat Config.GENOME_LENGTH) d)),
           (replicate (Z.to_nat Config.GENOME_LENGTH) d), gen'.
    split; [exact Hg|]. apply lookup_replicate_2. lia.
Qed.

Lemma initial_population_reaches (pop : list Genome) :
  Forall genome_sized pop →
  ∀ gen : Gen,
    (∀ i d, concat pop !! i = Some d → gen i = int_of_Direction d) →
    ∃ gen', initial_population (length pop) gen = Some (pop, gen')
            ∧ ∀ k, gen' k = gen (length (concat pop) + k)%nat.
Proof.
  induction 1 as [|g pop Hg Hpop IH]; intros gen Hgen.
  - by exists gen.
  - cbn [length initial_population concat]. unfold generateRandomGenome.
    replace (Z.to_nat Config.GENOME_LENGTH) with (length g)
      by (unfold genome_sized in Hg; lia).
    destruct (generate_reaches g gen) as (gen1 & Hgen1 & Hnext1).
    { intros i d Hi. apply Hgen. cbn [concat]. by apply lookup_app_l_Some. }
    rewrite Hgen1. cbn [mbind option_bind].
    destruct (IH gen1) as (gen' & Hrest & Hnext).
    { intros i d Hi. rewrite Hnext1. apply Hgen. cbn [concat].
      rewrite lookup_app_r by lia.
      by replace (length g + i - length g)%nat with i by lia. }
    rewrite Hrest. cbn [mbind option_bind].
    exists gen'. split; [reflexivity|].
    intros k. rewrite Hnext, Hnext1, length_app. f_equal. lia.
Qed.

(** X2: whatever the generators draw, [main] enters the loop with
    [POPULATION_SIZE] genomes of [GENOME_LENGTH] moves each, a fitness
    table of [POPULATION_SIZE] zeros, an idle pool of [THREAD_COUNT]
    workers and the generators of [crossover] and [mutate] untouched; and
    every move can stand at every locus of every genome of the initial
    population. *)
Theorem main_init_population (cgen mgen : Gen) :
  (∀ ggen : Gen,
     ∃ st,
       main_init ggen cgen mgen = Some st
       ∧ Z.of_nat (length (population st)) = Config.POPULATION_SIZE
       ∧ Forall genome_sized (population st)
       ∧ fitness st = replicate (Z.to_nat Config.POPULATION_SIZE) 0
       ∧ pool st = ThreadPool.create (Z.to_nat Config.THREAD_COUNT)
       ∧ crossover_gen st = cgen ∧ mutate_gen st = mgen)
  ∧ (∀ (j i : nat) (d : Direction),
       Z.of_nat j < Config.POPULATION_SIZE → Z.of_nat i < Config.GENOME_LENGTH →
       ∃ ggen st genome,
         main_init ggen cgen mgen = Some st
         ∧ population st !! j = Some genome
         ∧ genome !! i = Some d).
Proof.
  split.
  - intros ggen. unfold main_init.
    destruct (initial_population_sized (Z.to_nat Config.POPULATION_SIZE) ggen)
      as (pop & gen' & Hpop & Hl & Hs).
    rewrite Hpop. cbn [mbind option_bind].
    eexists. split; [reflexivity|].
    cbn [population fitness pool crossover_gen mutate_gen].
    split; [by rewrite Hl|]. split; [exact Hs|]. done.
  - intros j i d Hj Hi.
    set (genome := replicate (Z.to_nat Config.GENOME_LENGTH) d).
    set (pop := replicate (Z.to_nat Config.POPULATION_SIZE) genome).
    destruct (initial_population_reaches pop) with (gen := gen_of_moves (concat pop))
      as (gen' & Hpop & _).
    { apply Forall_replicate. unfold genome_sized, genome.
      rewrite length_replicate. reflexivity. }
    { apply gen_of_moves_lookup. }
    unfold pop at 1 in Hpop. rewrite length_replicate in Hpop.
    exists (gen_of_moves (concat pop)). unfold main_init. rewrite Hpop.
    cbn [mbind option_bind]. eexists _, genome.
    split; [reflexivity|]. cbn [population].
    split; apply lookup_replicate_2; lia.
Qed.

(** ** More on the fitness evaluator *)

(** A move changes one coordinate by at most one and never makes it
    negative. *)
Lemma apply_move_step (N : Z) (m : Direction) (x y : Z) :
  0 ≤ x → 0 ≤ y →
  0 ≤ (apply_move N m x y).1 ∧ 0 ≤ (apply_move N m x y).2
  ∧ (apply_move N m x y).1 + (apply_move N m x y).2 ≤ x + y + 1.
Proof.
  intros Hx Hy.
  destruct m; simpl;
    repeat match goal with
      | |- context [?a >? ?b] => rewrite (Z.gtb_ltb a b); destruct (Z.ltb_spec b a)
      | |- context [?a <? ?b] => destruct (Z.ltb_spec a b)
      end; simpl; lia.
Qed.

Lemma walk_distance (N : Z) (maze : Maze) (genome : Genome) :
  ∀ x y fx fy reads,
    0 ≤ x → 0 ≤ y →
    walk N maze genome x y = Some (fx, fy, reads) →
    0 ≤ fx ∧ 0 ≤ fy ∧ fx + fy ≤ x + y + Z.of_nat (length genome).
Proof.
  induction genome as [|m rest IH]; intros x y fx fy reads Hx Hy Hw.
  - injection Hw as <- <- _. simpl. lia.
  - cbn [walk] in Hw.
    pose proof (apply_move_step N m x y Hx Hy) as (Hx' & Hy' & Hsum).
    destruct (apply_move N m x y) as [x' y']. cbn [fst snd] in *.
    destruct (cell_at maze y' x') as [c|]; [|done]. cbn [mbind option_bind] in Hw.
    destruct (c =? 1).
    + injection Hw as <- <- _. cbn [length]. lia.
    + destruct (walk N maze rest x' y') as [[[fx' fy'] reads']|] eqn:Hrest; [|done].
      injection Hw as <- <- _.
      destruct (IH x' y' fx' fy' reads' Hx' Hy' Hrest) as (? & ? & ?).
      cbn [length]. lia.
Qed.

(** X3: on an N×N maze the cost lies between 2N minus the number of
    moves and 2N: each move takes the agent at most one step away from
    (0,0), so a genome of fewer than 2(N-1) moves cannot reach the
    bottom-right cell, and no genome costs more than the empty one. *)
Theorem evaluateFitness_cost_range (N : Z) (genome : Genome) (maze : Maze) :
  1 ≤ N → square N maze = true →
  ∃ cost,
    evaluateFitness N genome maze = Some cost
    ∧ 2 * N - Z.of_nat (length genome) ≤ cost ≤ 2 * N
    ∧ evaluateFitness N [] maze = Some (2 * N).
Proof.
  intros HN Hsq.
  destruct (walk_simulates N maze genome Hsq 0 0) as (fx & fy & reads & Hw & _).
  { unfold in_grid; simpl; lia. }
  destruct (walk_distance N maze genome 0 0 fx fy reads) as (Hx & Hy & Hsum);
    [lia|lia|exact Hw|].
  exists ((N - fy) + (N - fx)). unfold evaluateFitness. rewrite Hw. simpl.
  split; [done|]. split; [lia|]. f_equal. lia.
Qed.

Lemma evaluateFitness_cost_range_witness :
  ∃ cost,
    evaluateFitness 4 [RIGHT; RIGHT; DOWN] wall_maze = Some cost
    ∧ 2 * 4 - Z.of_nat (length [RIGHT; RIGHT; DOWN]) ≤ cost ≤ 2 * 4
    ∧ evaluateFitness 4 [] wall_maze = Some (2 * 4).
Proof.
  apply (evaluateFitness_cost_range 4 [RIGHT; RIGHT; DOWN] wall_maze);
    [lia | reflexivity].
Defined.

(** The shape of the trace of cells read by the loop. *)
Lemma walk_trace (N : Z) (maze : Maze) (genome : Genome) :
  ∀ x y fx fy reads,
    walk N maze genome x y = Some (fx, fy, reads) →
    (length reads ≤ length genome)%nat
    ∧ (genome ≠ [] → last reads = Some (fx, fy))
    ∧ (∀ i p, (S i < length reads)%nat → reads !! i = Some p →
         ∃ c, cell_at maze p.2 p.1 = Some c ∧ c ≠ 1)
    ∧ ((length reads < length genome)%nat → cell_at maze fy fx = Some 1).
Proof.
  induction genome as [|m rest IH]; intros x y fx fy reads Hw.
  - injection Hw as <- <- <-. simpl.
    split; [lia|]. split; [done|]. split; [intros i p Hi; lia|intros Hi; lia].
  - cbn [walk] in Hw.
    destruct (apply_move N m x y) as [x' y'].
    destruct (cell_at maze y' x') as [c|] eqn:Hc; [|done].
    cbn [mbind option_bind] in Hw.
    destruct (Z.eqb_spec c 1) as [->|Hopen].
    + injection Hw as <- <- <-. cbn [length].
      split; [lia|]. split; [done|].
      split; [intros i p Hi; lia|intros _; exact Hc].
    + destruct (walk N maze rest x' y') as [[[fx' fy'] reads']|] eqn:Hrest; [|done].
      injection Hw as <- <- <-.
      destruct (IH x' y' fx' fy' reads' Hrest) as (Hlen & Hlast & Hopen' & Hwall).
      cbn [length]. split; [lia|]. split; [|split].
      * intros _. destruct rest as [|m' rest'].
        -- injection Hrest as <- <- <-. done.
        -- destruct reads' as [|r reads''].
           ++ cbn [walk] in Hrest.
              destruct (apply_move N m' x' y') as [x'' y''].
              destruct (cell_at maze y'' x''); [|done].
              cbn [mbind option_bind] in Hrest.
              destruct (_ =? 1); [done|].
              destruct (walk N maze rest' x'' y'') as [[[? ?] ?]|]; done.
           ++ rewrite last_cons_cons. by apply Hlast.
      * intros [|i] p Hi Hp.
        -- injection Hp as <-. by exists c.
        -- apply (Hopen' i p); [cbn [length] in Hi; lia|exact Hp].
      * intros Hi. apply Hwall. lia.
Qed.

(** X4: on an N×N maze and for a non-empty genome, the loop reads at
    most one cell per move, ends on the last cell it read, every cell read
    before the last one is open, and when it read fewer cells than there
    are moves it stopped on a wall: the final position is then the wall
    cell itself. *)
Theorem evaluateFitness_trace (N : Z) (genome : Genome) (maze : Maze) :
  1 ≤ N → square N maze = true → genome ≠ [] →
  ∃ fx fy reads,
    final_position N genome maze = Some (fx, fy)
    ∧ cells_read N genome maze = Some reads
    ∧ (length reads ≤ length genome)%nat
    ∧ last reads = Some (fx, fy)
    ∧ (∀ i p, (S i < length reads)%nat → reads !! i = Some p →
         ∃ c, cell_at maze p.2 p.1 = Some c ∧ c ≠ 1)
    ∧ ((length reads < length genome)%nat → cell_at maze fy fx = Some 1).
Proof.
  intros HN Hsq Hne.
  destruct (walk_simulates N maze genome Hsq 0 0) as (fx & fy & reads & Hw & _).
  { unfold in_grid; simpl; lia. }
  destruct (walk_trace N maze genome 0 0 fx fy reads Hw)
    as (Hlen & Hlast & Hopen & Hwall).
  exists fx, fy, reads. unfold final_position, cells_read. rewrite Hw. simpl.
  split; [done|]. split; [done|]. split; [exact Hlen|].
  split; [by apply Hlast|]. split; [exact Hopen|exact Hwall].
Qed.

Lemma evaluateFitness_trace_witness :
  ∃ fx fy reads,
    final_position 4 [RIGHT; RIGHT; DOWN] wall_maze = Some (fx, fy)
    ∧ cells_read 4 [RIGHT; RIGHT; DOWN] wall_maze = Some reads
    ∧ (length reads ≤ length [RIGHT; RIGHT; DOWN])%nat
    ∧ last reads = Some (fx, fy)
    ∧ (∀ i p, (S i < length reads)%nat → reads !! i = Some p →
         ∃ c, cell_at wall_maze p.2 p.1 = Some c ∧ c ≠ 1)
    ∧ ((length reads < length [RIGHT; RIGHT; DOWN])%nat →
       cell_at wall_maze fy fx = Some 1).
Proof.
  apply (evaluateFitness_trace 4 [RIGHT; RIGHT; DOWN] wall_maze);
    [lia | reflexivity | discriminate].
Defined.

Lemma ends_on_wall_cons (maze : Maze) (p r : Z * Z) (reads : list (Z * Z)) :
  ends_on_wall maze (p :: r :: reads) = ends_on_wall maze (r :: reads).
Proof. unfold ends_on_wall. by rewrite last_cons_cons. Qed.

(** The walk of a longer genome: it is the walk of the shorter one when
    that stopped on a wall, and continues from its end otherwise. *)
Lemma walk_append (N : Z) (maze : Maze) (genome suffix : Genome) :
  ∀ x y fx fy reads,
    walk N maze genome x y = Some (fx, fy, reads) →
    walk N maze (genome ++ suffix) x y
    = if ends_on_wall maze reads
      then Some (fx, fy, reads)
      else '(fx', fy', reads') ← walk N maze suffix fx fy;
           Some (fx', fy', reads ++ reads').
Proof.
  induction genome as [|m rest IH]; intros x y fx fy reads Hw.
  - injection Hw as <- <- <-. cbn [app ends_on_wall last].
    by destruct (walk N maze suffix x y) as [[[? ?] ?]|].
  - cbn [walk app] in Hw |- *.
    destruct (apply_move N m x y) as [x' y'].
    destruct (cell_at maze y' x') as [c|] eqn:Hc; [|done].
    cbn [mbind option_bind] in Hw |- *.
    destruct (Z.eqb_spec c 1) as [->|Hopen].
    + injection Hw as <- <- <-. unfold ends_on_wall. cbn [last].
      by rewrite bool_decide_eq_true_2.
    + destruct (walk N maze rest x' y') as [[[fx' fy'] reads']|] eqn:Hrest; [|done].
      injection Hw as <- <- <-.
      rewrite (IH x' y' fx' fy' reads' Hrest).
      destruct reads' as [|r reads''].
      * assert (ends_on_wall maze [(x', y')] = false) as ->.
        { unfold ends_on_wall. cbn [last]. apply bool_decide_eq_false_2.
          rewrite Hc. intros [= ->]. done. }
        cbn [ends_on_wall last].
        by destruct (walk N maze suffix fx' fy') as [[[? ?] ?]|].
      * rewrite ends_on_wall_cons.
        destruct (ends_on_wall maze (r :: reads'')); [done|].
        by destruct (walk N maze suffix fx' fy') as [[[? ?] ?]|].
Qed.

(** X5: moves appended to a genome do not change its cost when its walk
    stopped on a wall; otherwise the cost of the longer genome is that of
    the walk of the appended moves started where the walk of the shorter
    genome ended. *)
Theorem evaluateFitness_app (N : Z) (maze : Maze) (genome suffix : Genome)
    (fx fy : Z) (reads : list (Z * Z)) :
  final_position N genome maze = Some (fx, fy) →
  cells_read N genome maze = Some reads →
  evaluateFitness N (genome ++ suffix) maze
  = if ends_on_wall maze reads
    then evaluateFitness N genome maze
    else '(fx', fy', _) ← walk N maze suffix fx fy;
         Some ((N - fy') + (N - fx')).
Proof.
  unfold final_position, cells_read, evaluateFitness.
  destruct (walk N maze genome 0 0) as [[[x y] r]|] eqn:Hw; [|done].
  cbn [mbind option_bind]. intros [= -> ->] [= ->].
  rewrite (walk_append N maze genome suffix 0 0 fx fy reads Hw).
  destruct (ends_on_wall maze reads); [done|].
  by destruct (walk N maze suffix fx fy) as [[[? ?] ?]|].
Qed.

Lemma evaluateFitness_app_witness :
  evaluateFitness 4 ([RIGHT] ++ [RIGHT; DOWN]) wall_maze
  = if ends_on_wall wall_maze [(1, 0)]
    then evaluateFitness 4 [RIGHT] wall_maze
    else '(fx', fy', _) ← walk 4 wall_maze [RIGHT; DOWN] 1 0;
         Some ((4 - fy') + (4 - fx')).
Proof.
  apply (evaluateFitness_app 4 wall_maze [RIGHT] [RIGHT; DOWN] 1 0 [(1, 0)]);
    reflexivity.
Defined.

(** ** More on crossover *)

(** X6: for parents of length [GENOME_LENGTH] and every generator, each
    locus of the child holds the move one of the parents has at that
    locus; where the parents agree the child agrees with them, so the
    crossover of a genome with itself is that genome. *)
Theorem crossover_inherits (parentA parentB : Genome) (gen : Gen) :
  Z.of_nat (length parentA) = Config.GENOME_LENGTH →
  Z.of_nat (length parentB) = Config.GENOME_LENGTH →
  ∃ child gen',
    crossover parentA parentB gen = Some (child, gen')
    ∧ (∀ i, child !! i = parentA !! i ∨ child !! i = parentB !! i)
    ∧ (∀ i, parentA !! i = parentB !! i → child !! i = parentA !! i)
    ∧ (parentA = parentB → child = parentA).
Proof.
  intros HA HB. unfold crossover.
  pose proof (uniform_int_distribution_range 0 (Config.GENOME_LENGTH - 1) gen) as Hr.
  destruct (uniform_int_distribution 0 (Config.GENOME_LENGTH - 1) gen) as [k gen'].
  cbn [fst] in Hr. assert (0 ≤ k ≤ Config.GENOME_LENGTH - 1) as Hk by (apply Hr; done).
  rewrite crossover_at_splice by lia. cbn [mbind option_bind].
  set (child := take (Z.to_nat k) parentA ++ drop (Z.to_nat k) parentB).
  assert (∀ i, child !! i
               = if decide (i < Z.to_nat k)%nat then parentA !! i else parentB !! i)
    as Hchild.
  { intros i. unfold child. case_decide as Hi.
    - rewrite lookup_app_l by (rewrite length_take; lia).
      by rewrite lookup_take_lt.
    - rewrite lookup_app_r by (rewrite length_take; lia).
      rewrite length_take, lookup_drop. f_equal. lia. }
  exists child, gen'. split; [done|].
  split; [intros i; rewrite Hchild; case_decide; auto|].
  split; [intros i Hi; rewrite Hchild; by case_decide|].
  intros <-. apply list_eq. intros i. rewrite Hchild. by case_decide.
Qed.

Lemma crossover_inherits_witness :
  ∃ child gen',
    crossover stand_genome right_genome (constant_gen 7) = Some (child, gen')
    ∧ (∀ i, child !! i = stand_genome !! i ∨ child !! i = right_genome !! i)
    ∧ (∀ i, stand_genome !! i = right_genome !! i → child !! i = stand_genome !! i)
    ∧ (stand_genome = right_genome → child = stand_genome).
Proof.
  apply (crossover_inherits stand_genome right_genome (constant_gen 7));
    reflexivity.
Defined.

(** [std::copy] into a destination that ends before the copied range
    ends writes outside the destination. *)
Lemma std_copy_overrun {A : Type} (src : list A) (count : nat) :
  ∀ (dst : list A) (i : nat),
    (0 < count)%nat → (length dst < i + count)%nat →
    std_copy src dst (Z.of_nat i) count = None.
Proof.
  induction count as [|count IH]; intros dst i Hpos Hover; [lia|].
  cbn [std_copy]. destruct (vec_at src (Z.of_nat i)) as [a|]; [|done].
  cbn [mbind option_bind].
  destruct (decide (i < length dst)%nat) as [Hin|Hout].
  - rewrite vec_set_Some, Nat2Z.id by lia. cbn [mbind option_bind].
    replace (Z.of_nat i + 1) with (Z.of_nat (S i)) by lia.
    apply IH; [|rewrite length_insert]; lia.
  - unfold vec_set.
    destruct (Z.ltb_spec (Z.of_nat i) (Z.of_nat (length dst))); [lia|].
    by rewrite andb_false_r.
Qed.

(** X7: [crossover] needs the second parent to fit into the first: when
    [parent2] is longer than [parent1], every split point before the end
    of [parent2] makes the copy run past the end of the child, and so
    does every draw of [crossover] once [parent2] has [GENOME_LENGTH]
    moves or more; a split point beyond the end of [parent2] is out of
    range as well. *)
Theorem crossover_length_mismatch (parent1 parent2 : Genome) :
  (length parent1 < length parent2)%nat →
  (∀ k, 0 ≤ k < Z.of_nat (length parent2) → crossover_at k parent1 parent2 = None)
  ∧ (∀ k, Z.of_nat (length parent2) < k → crossover_at k parent1 parent2 = None)
  ∧ (Config.GENOME_LENGTH ≤ Z.of_nat (length parent2) →
     ∀ gen, crossover parent1 parent2 gen = None).
Proof.
  intros Hlen.
  assert (∀ k, 0 ≤ k < Z.of_nat (length parent2) →
               crossover_at k parent1 parent2 = None) as Hat.
  { intros k Hk. unfold crossover_at.
    rewrite bool_decide_eq_true_2 by lia.
    rewrite <- (Z2Nat.id k) at 1 by lia.
    apply std_copy_overrun; lia. }
  split; [exact Hat|]. split.
  - intros k Hk. unfold crossover_at. by rewrite bool_decide_eq_false_2 by lia.
  - intros Hlong gen. unfold crossover.
    pose proof (uniform_int_distribution_range 0 (Config.GENOME_LENGTH - 1) gen) as Hr.
    destruct (uniform_int_distribution 0 (Config.GENOME_LENGTH - 1) gen) as [k gen'].
    cbn [fst] in Hr. assert (0 ≤ k ≤ Config.GENOME_LENGTH - 1) as Hk by (apply Hr; done).
    by rewrite Hat by lia.
Qed.

Lemma crossover_length_mismatch_witness :
  (∀ k, 0 ≤ k < Z.of_nat (length stand_genome) →
     crossover_at k [UP; UP] stand_genome = None)
  ∧ (∀ k, Z.of_nat (length stand_genome) < k →
     crossover_at k [UP; UP] stand_genome = None)
  ∧ (Config.GENOME_LENGTH ≤ Z.of_nat (length stand_genome) →
     ∀ gen, crossover [UP; UP] stand_genome gen = None).
Proof.
  apply (crossover_length_mismatch [UP; UP] stand_genome).
  vm_compute. lia.
Defined.

(** ** More on mutation *)

Lemma mutate_draw (genome : Genome) (gen : Gen) :
  ∃ p d gen',
    p = (uniform_int_distribution 0 (Config.GENOME_LENGTH - 1) gen).1
    ∧ 0 ≤ p ≤ Config.GENOME_LENGTH - 1
    ∧ mutate genome gen = (genome' ← mutate_at p d genome; Some (genome', gen')).
Proof.
  unfold mutate.
  pose proof (uniform_int_distribution_range 0 (Config.GENOME_LENGTH - 1) gen) as Hp.
  destruct (uniform_int_distribution 0 (Config.GENOME_LENGTH - 1) gen) as [p gen1].
  pose proof (uniform_int_distribution_range 0 4 gen1) as Hn.
  destruct (uniform_int_distribution 0 4 gen1) as [n gen2].
  cbn [fst] in Hp, Hn |- *.
  destruct (Direction_of_int_valid n) as [d Hd]; [lia|].
  rewrite Hd. cbn [mbind option_bind].
  exists p, d, gen2.
  split; [done|]. split; [apply Hp; done|done].
Qed.

(** X8: [mutate] draws its locus below [GENOME_LENGTH] whatever the
    length of the genome.  On a genome of [GENOME_LENGTH] moves or more
    it always succeeds, keeps the length and never changes a locus at
    index [GENOME_LENGTH] or beyond. *)
Theorem mutate_long_genome (genome : Genome) (gen : Gen) :
  Config.GENOME_LENGTH ≤ Z.of_nat (length genome) →
  ∃ genome' gen',
    mutate genome gen = Some (genome', gen')
    ∧ length genome' = length genome
    ∧ drop (Z.to_nat Config.GENOME_LENGTH) genome'
      = drop (Z.to_nat Config.GENOME_LENGTH) genome.
Proof.
  intros Hlen.
  destruct (mutate_draw genome gen) as (p & d & gen' & _ & Hp & ->).
  unfold mutate_at. rewrite vec_set_Some by lia. cbn [mbind option_bind].
  eexists _, _. split; [reflexivity|]. split; [apply length_insert|].
  apply drop_insert_lt. lia.
Qed.

Lemma mutate_long_genome_witness :
  ∃ genome' gen',
    mutate (stand_genome ++ [UP; UP]) (constant_gen 99) = Some (genome', gen')
    ∧ length genome' = length (stand_genome ++ [UP; UP])
    ∧ drop (Z.to_nat Config.GENOME_LENGTH) genome'
      = drop (Z.to_nat Config.GENOME_LENGTH) (stand_genome ++ [UP; UP]).
Proof.
  apply (mutate_long_genome (stand_genome ++ [UP; UP]) (constant_gen 99)).
  vm_compute. discriminate.
Defined.

(** X9: on a genome shorter than [GENOME_LENGTH], [mutate] writes
    outside the genome exactly when the locus it draws is not below the
    length of the genome; some generator draws such a locus, and on the
    empty genome every generator does. *)
Theorem mutate_short_genome (genome : Genome) :
  Z.of_nat (length genome) < Config.GENOME_LENGTH →
  (∀ gen,
     mutate genome gen = None
     ↔ Z.of_nat (length genome)
       ≤ (uniform_int_distribution 0 (Config.GENOME_LENGTH - 1) gen).1)
  ∧ (∃ gen, mutate genome gen = None)
  ∧ (genome = [] → ∀ gen, mutate genome gen = None).
Proof.
  intros Hshort.
  assert (∀ gen,
            mutate genome gen = None
            ↔ Z.of_nat (length genome)
              ≤ (uniform_int_distribution 0 (Config.GENOME_LENGTH - 1) gen).1)
    as Hiff.
  { intros gen.
    destruct (mutate_draw genome gen) as (p & d & gen' & <- & Hp & ->).
    unfold mutate_at. split.
    - intros Hnone.
      destruct (Z.le_gt_cases (Z.of_nat (length genome)) p) as [Hle|Hlt]; [exact Hle|].
      rewrite vec_set_Some in Hnone by lia. discriminate Hnone.
    - intros Hle. unfold vec_set.
      destruct (Z.ltb_spec p (Z.of_nat (length genome))); [lia|].
      by rewrite andb_false_r. }
  split; [exact Hiff|]. split.
  - exists (constant_gen (Config.GENOME_LENGTH - 1 - 0)). apply Hiff.
    rewrite uniform_int_distribution_onto by (unfold Config.GENOME_LENGTH; lia).
    lia.
  - intros -> gen. apply Hiff.
    pose proof (uniform_int_distribution_range 0 (Config.GENOME_LENGTH - 1) gen) as Hr.
    cbn [length]. unfold Config.GENOME_LENGTH in *. lia.
Qed.

Lemma mutate_short_genome_witness :
  (∀ gen,
     mutate [UP; DOWN; LEFT] gen = None
     ↔ Z.of_nat (length [UP; DOWN; LEFT])
       ≤ (uniform_int_distribution 0 (Config.GENOME_LENGTH - 1) gen).1)
  ∧ (∃ gen, mutate [UP; DOWN; LEFT] gen = None)
  ∧ ([UP; DOWN; LEFT] = [] → ∀ gen, mutate [UP; DOWN; LEFT] gen = None).
Proof.
  apply (mutate_short_genome [UP; DOWN; LEFT]). vm_compute. reflexivity.
Defined.

(** ** Printing *)

Lemma letter_inj (d1 d2 : Direction) : letter d1 = letter d2 → d1 = d2.
Proof. destruct d1, d2; simpl; intros H; try done; discriminate H. Qed.

Lemma letter_not_endl (d : Direction) : letter d ≠ endl.
Proof. destruct d; discriminate. Qed.

(** A printed line followed by more output splits in one way only. *)
Lemma printed_line_split (g1 g2 : Genome) (r1 r2 : list ascii) :
  (letter <$> g1) ++ endl :: r1 = (letter <$> g2) ++ endl :: r2 →
  g1 = g2 ∧ r1 = r2.
Proof.
  revert g2. induction g1 as [|d1 g1 IH]; intros [|d2 g2] H; simpl in H.
  - by injection H as ->.
  - injection H as H _. by destruct (letter_not_endl d2).
  - injection H as H _. by destruct (letter_not_endl d1).
  - injection H as Hd H. apply letter_inj in Hd as ->.
    by destruct (IH g2 H) as [-> ->].
Qed.

(** X10: [printGenome] writes one letter per move followed by a line
    end and no line end before it, so what is printed determines the
    genome, and what the printing loop writes for a population determines
    the population. *)
Theorem printGenome_determines_genome (pop1 pop2 : list Genome) :
  (∀ g, length (printGenome g) = S (length g)
        ∧ last (printGenome g) = Some endl
        ∧ endl ∉ letter <$> g)
  ∧ (∀ g1 g2, printGenome g1 = printGenome g2 ↔ g1 = g2)
  ∧ (print_population pop1 = print_population pop2 ↔ pop1 = pop2).
Proof.
  split; [|split].
  - intros g. unfold printGenome. split; [|split].
    + rewrite length_app, length_fmap. simpl. lia.
    + apply last_snoc.
    + intros (d & Hd & _)%list_elem_of_fmap. by destruct (letter_not_endl d).
  - intros g1 g2. split; [|by intros ->].
    unfold printGenome. intros H.
    by destruct (printed_line_split g1 g2 [] [] H).
  - split; [|by intros ->].
    unfold print_population. revert pop2.
    induction pop1 as [|g1 pop1 IH]; intros [|g2 pop2] H.
    + done.
    + exfalso. cbn in H. unfold printGenome in H.
      by destruct (letter <$> g2).
    + exfalso. cbn in H. unfold printGenome in H.
      by destruct (letter <$> g1).
    + cbn in H. unfold printGenome in H at 1 3.
      rewrite <- !app_assoc in H. cbn [app] in H.
      destruct (printed_line_split _ _ _ _ H) as [-> Hrest].
      f_equal. by apply IH.
Qed.

(** ** More on the thread pool *)



Lemma run_list_fitness_tasks (pop : list Genome) (js : list nat) :
  ∀ fit : list Z,
    (∀ j, j ∈ js → (j < length pop)%nat ∧ (j < length fit)%nat) →
    ∃ fit',
      run_list (fitness_tasks pop main_maze js) fit = Some fit'
      ∧ length fit' = length fit
      ∧ ∀ j, fit' !! j
             = if decide (j ∈ js)
               then pop !! j ≫= λ g, evaluateFitness Config.MAZE_SIZE g main_maze
               else fit !! j.
Proof.
  induction js as [|k js IH]; intros fit Hjs.
  - exists fit. split; [reflexivity|]. split; [reflexivity|].
    intros j. rewrite decide_False; [done|]. apply not_elem_of_nil.
  - destruct (Hjs k) as [Hkp Hkf]; [constructor|].
    destruct (lookup_lt_is_Some_2 pop k Hkp) as [g Hg].
    destruct (evaluateFitness_main_maze g) as [c Hc].
    change (fitness_tasks pop main_maze (k :: js))
      with (fitness_task pop main_maze (Z.of_nat k) :: fitness_tasks pop main_maze js).
    cbn [run_list].
    rewrite (fitness_task_writes pop main_maze k fit g c Hg Hc Hkf).
    cbn [mbind option_bind].
    destruct (IH (<[k := c]> fit)) as (fit' & Hrun & Hlen & Hlook).
    { intros j Hj. rewrite length_insert. apply Hjs. by apply list_elem_of_further. }
    exists fit'. split; [exact Hrun|]. split; [by rewrite Hlen, length_insert|].
    intros j. rewrite Hlook.
    destruct (decide (j = k)) as [->|Hne].
    + rewrite (decide_True (P := k ∈ k :: js)) by constructor.
      destruct (decide (k ∈ js)); [done|].
      rewrite list_lookup_insert_eq by done. by rewrite Hg.
    + destruct (decide (j ∈ js)) as [Hin|Hout].
      * rewrite decide_True; [done|]. by apply list_elem_of_further.
      * rewrite decide_False; [by rewrite list_lookup_insert_ne|].
        intros [?|?]%elem_of_cons; done.
Qed.

(** X12: the evaluation tasks of [main] do not depend on one another:
    each reads the population and writes its own slot of the table.  In
    whatever order the workers run the [POPULATION_SIZE] tasks, the table
    that results is the same, the cost of genome i at index i, and it is
    the table the evaluation phase returns. *)
Theorem evaluation_order_irrelevant (pop : list Genome) (fit : list Z)
    (js : list nat) :
  Z.of_nat (length pop) = Config.POPULATION_SIZE →
  Z.of_nat (length fit) = Config.POPULATION_SIZE →
  js ≡ₚ seq 0 (Z.to_nat Config.POPULATION_SIZE) →
  ∃ table,
    fitness_table pop = Some table
    ∧ run_list (fitness_tasks pop main_maze js) fit = Some table
    ∧ ∀ p : ThreadPool.t (list Z),
        ThreadPool.tasks p = [] → (0 < ThreadPool.workers p)%nat →
        snd <$> evaluate_phase p pop fit main_maze = Some table.
Proof.
  intros Hpop Hfit Hperm.
  assert (∀ j, j ∈ js ↔ (j < 100)%nat) as Hmem.
  { intros j. rewrite Hperm, elem_of_seq.
    change (Z.to_nat Config.POPULATION_SIZE) with 100%nat. lia. }
  unfold Config.POPULATION_SIZE in Hpop, Hfit.
  destruct (run_list_fitness_tasks pop js fit) as (table & Hrun & Hlen & Hlook).
  { intros j Hj%Hmem. lia. }
  assert (fitness_table pop = Some table) as Htab.
  { apply mapM_Some_2, Forall2_same_length_lookup_2; [lia|].
    intros j g c Hg Hc. rewrite Hlook in Hc.
    apply lookup_lt_Some in Hg as Hj.
    rewrite decide_True in Hc by (apply Hmem; lia).
    by rewrite Hg in Hc. }
  exists table. split; [exact Htab|]. split; [exact Hrun|].
  intros p Hidle Hw.
  destruct (evaluate_phase_table p pop fit Hidle Hw)
    as (p' & fit' & He & _ & _ & _ & Htab'); [done..|].
  rewrite He. cbn [fmap option_fmap option_map snd].
  rewrite Htab in Htab'. by injection Htab' as ->.
Qed.

Lemma evaluation_order_irrelevant_witness :
  ∃ table,
    fitness_table unsorted_population = Some table
    ∧ run_list (fitness_tasks unsorted_population main_maze
                  (reverse (seq 0 (Z.to_nat Config.POPULATION_SIZE))))
        (replicate 100 7) = Some table
    ∧ ∀ p : ThreadPool.t (list Z),
        ThreadPool.tasks p = [] → (0 < ThreadPool.workers p)%nat →
        snd <$> evaluate_phase p unsorted_population (replicate 100 7) main_maze
        = Some table.
Proof.
  apply (evaluation_order_irrelevant unsorted_population (replicate 100 7)
           (reverse (seq 0 (Z.to_nat Config.POPULATION_SIZE))));
    [reflexivity | reflexivity | apply reverse_Permutation].
Defined.

(** ** More on the generation loop *)

(** X13: an evaluation phase on an idle pool fills the fitness table
    index by index: entry i is the cost of genome i in [main]'s maze,
    whatever the table held before, and the pool is idle again when the
    phase ends. *)
Theorem evaluate_phase_index_aligned (p : ThreadPool.t (list Z))
    (pop : list Genome) (fit : list Z) :
  ThreadPool.tasks p = [] → (0 < ThreadPool.workers p)%nat →
  Z.of_nat (length pop) = Config.POPULATION_SIZE →
  Z.of_nat (length fit) = Config.POPULATION_SIZE →
  ∃ p' fit',
    evaluate_phase p pop fit main_maze = Some (p', fit')
    ∧ Z.of_nat (length fit') = Config.POPULATION_SIZE
    ∧ (∀ i g, pop !! i = Some g →
         ∃ c, fit' !! i = Some c
              ∧ evaluateFitness Config.MAZE_SIZE g main_maze = Some c)
    ∧ ThreadPool.tasks p' = []
    ∧ (∀ fit0, Z.of_nat (length fit0) = Config.POPULATION_SIZE →
         snd <$> evaluate_phase p pop fit0 main_maze = Some fit').
Proof.
  intros Hidle Hw Hpop Hfit.
  destruct (evaluate_phase_table p pop fit Hidle Hw Hpop Hfit)
    as (p' & fit' & He & Ht & _ & Hl & Htab).
  exists p', fit'. split; [exact He|]. split; [exact Hl|].
  split; [exact (proj1 (proj2 (fitness_table_lookup pop fit' Htab)))|].
  split; [exact Ht|].
  intros fit0 Hfit0.
  destruct (evaluate_phase_table p pop fit0 Hidle Hw Hpop Hfit0)
    as (p0 & fit0' & He0 & _ & _ & _ & Htab0).
  rewrite He0. cbn [fmap option_fmap option_map snd].
  rewrite Htab in Htab0. by injection Htab0 as ->.
Qed.

Lemma evaluate_phase_index_aligned_witness :
  ∃ p' fit',
    evaluate_phase (ThreadPool.create 4) unsorted_population (replicate 100 7) main_maze
      = Some (p', fit')
    ∧ Z.of_nat (length fit') = Config.POPULATION_SIZE
    ∧ (∀ i g, unsorted_population !! i = Some g →
         ∃ c, fit' !! i = Some c
              ∧ evaluateFitness Config.MAZE_SIZE g main_maze = Some c)
    ∧ ThreadPool.tasks p' = []
    ∧ (∀ fit0, Z.of_nat (length fit0) = Config.POPULATION_SIZE →
         snd <$> evaluate_phase (ThreadPool.create 4) unsorted_population fit0 main_maze
         = Some fit').
Proof.
  apply (evaluate_phase_index_aligned (ThreadPool.create 4) unsorted_population
           (replicate 100 7));
    [reflexivity | vm_compute; lia | reflexivity | reflexivity].
Defined.

(** Costs in [main]'s maze. *)
Lemma main_maze_cost_bounds (g : Genome) (c : Z) :
  evaluateFitness Config.MAZE_SIZE g main_maze = Some c →
  2 ≤ c ≤ 2 * Config.MAZE_SIZE.
Proof.
  destruct (walk_simulates Config.MAZE_SIZE main_maze g) with (x := 0) (y := 0)
    as (fx & fy & reads & Hw & [Hx Hy] & _); [reflexivity|by vm_compute|].
  unfold evaluateFitness. rewrite Hw. simpl in Hx, Hy |- *.
  intros [= <-]. unfold Config.MAZE_SIZE in *. lia.
Qed.

(** The assembly loop reads the first [POPULATION_SIZE/2] genomes only. *)
Lemma assemble_reads_first_half (pop pop' : list Genome) :
  (∀ j, (j < 50)%nat → pop !! j = pop' !! j) →
  ∀ (count i : nat) (acc : list Genome) (cgen mgen : Gen),
    (i + count ≤ 50)%nat →
    assemble pop (Z.of_nat i) count acc cgen mgen
    = assemble pop' (Z.of_nat i) count acc cgen mgen.
Proof.
  intros Hfirst. induction count as [|count IH]; intros i acc cgen mgen Hi.
  - reflexivity.
  - cbn [assemble].
    replace (Config.POPULATION_SIZE ÷ 2 - Z.of_nat i - 1) with (Z.of_nat (49 - i))
      by (change (Config.POPULATION_SIZE ÷ 2) with 50; lia).
    rewrite !vec_at_lookup.
    rewrite <- (Hfirst i), <- (Hfirst (49 - i)%nat) by lia.
    destruct (pop !! i) as [elite|]; [|reflexivity].
    destruct (pop !! (49 - i)%nat) as [partner|]; [|reflexivity].
    cbn [mbind option_bind].
    destruct (crossover elite partner cgen) as [[child cgen1]|]; [|reflexivity].
    cbn [mbind option_bind].
    destruct (mutate child mgen) as [[child' mgen1]|]; [|reflexivity].
    cbn [mbind option_bind].
    replace (Z.of_nat i + 1) with (Z.of_nat (S i)) by lia.
    apply IH. lia.
Qed.

(** X14: lines 201-232, run on the vector the selection has left, carry
    its first [POPULATION_SIZE/2] genomes over unchanged into the even
    slots of the new population, genome i at slot 2i, followed at slot
    2i+1 by a mutated crossover child of genome i and genome
    [POPULATION_SIZE/2 - 1 - i]; the new fitness table holds the cost of
    each carried genome at its slot, and the value printed is a cost
    between 2 and [2 * MAZE_SIZE] not above the cost of any carried
    genome.  The genomes in the second half of the vector and the fitness
    table of the evaluated population have no influence on the new
    population, the new table or the value printed. *)
Theorem reproduce_carries_elites (st : State) :
  well_formed st = true →
  ∃ st' best,
    reproduce (pool st) (fitness st) (population st)
      (crossover_gen st) (mutate_gen st) = Some (st', best)
    ∧ (∀ i, (i < 50)%nat →
         ∃ elite partner child cost,
           population st !! i = Some elite
           ∧ population st !! (49 - i)%nat = Some partner
           ∧ offspring elite partner child
           ∧ population st' !! (2 * i)%nat = Some elite
           ∧ population st' !! (2 * i + 1)%nat = Some child
           ∧ fitness st' !! (2 * i)%nat = Some cost
           ∧ evaluateFitness Config.MAZE_SIZE elite main_maze = Some cost
           ∧ best ≤ cost)
    ∧ 2 ≤ best ≤ 2 * Config.MAZE_SIZE
    ∧ (∀ st2,
         well_formed st2 = true →
         take 50 (population st2) = take 50 (population st) →
         crossover_gen st2 = crossover_gen st →
         mutate_gen st2 = mutate_gen st →
         ∃ st2',
           reproduce (pool st2) (fitness st2) (population st2)
             (crossover_gen st2) (mutate_gen st2) = Some (st2', best)
           ∧ population st2' = population st'
           ∧ fitness st2' = fitness st').
Proof.
  intros Hwf.
  destruct (reproduce_step st Hwf)
    as (st' & best & Hr & Hwf' & Htab & Hmin & Hin & Hle & Hpairs & Ha).
  exists st', best. split; [exact Hr|].
  destruct (fitness_table_lookup _ _ Htab) as (_ & Hcost & Hmember).
  split; [|split].
  - intros i Hi.
    destruct (Hpairs i) as (elite & partner & child & H1 & H2 & H3 & H4 & H5);
      [exact Hi|].
    destruct (Hcost _ _ H4) as (cost & Hc & Hev).
    exists elite, partner, child, cost.
    split; [exact H1|]. split.
    { apply vec_at_inv in H2 as [_ H2].
      replace (49 - i)%nat
        with (Z.to_nat (Config.POPULATION_SIZE ÷ 2 - Z.of_nat i - 1)); [exact H2|].
      change (Config.POPULATION_SIZE ÷ 2) with 50. lia. }
    split; [exact H3|]. split; [exact H4|]. split; [exact H5|].
    split; [exact Hc|]. split; [exact Hev|].
    apply Hle. by eapply list_elem_of_lookup_2.
  - destruct (Hmember best Hin) as (g & _ & Hev).
    exact (main_maze_cost_bounds g best Hev).
  - intros st2 Hwf2 Htake Hc Hm.
    destruct (reproduce_step st2 Hwf2)
      as (st2' & best2 & Hr2 & _ & Htab2 & Hmin2 & _ & _ & _ & Ha2).
    rewrite Hc, Hm in Ha2.
    assert (assemble (population st2) 0 (Z.to_nat (Config.POPULATION_SIZE ÷ 2)) []
              (crossover_gen st) (mutate_gen st)
            = assemble (population st) 0 (Z.to_nat (Config.POPULATION_SIZE ÷ 2)) []
                (crossover_gen st) (mutate_gen st)) as Heq.
    { apply (assemble_reads_first_half (population st2) (population st))
        with (i := 0%nat).
      - intros j Hj.
        rewrite <- (lookup_take_lt (population st2) 50 j) by exact Hj.
        rewrite <- (lookup_take_lt (population st) 50 j) by exact Hj.
        by rewrite Htake.
      - change (Z.to_nat (Config.POPULATION_SIZE ÷ 2)) with 50%nat. lia. }
    rewrite Heq, Ha in Ha2. injection Ha2 as Hp2 _ _.
    rewrite <- Hp2 in Htab2. rewrite Htab in Htab2. injection Htab2 as Hf2.
    rewrite <- Hf2 in Hmin2. rewrite Hmin in Hmin2. injection Hmin2 as <-.
    exists st2'. split; [exact Hr2|]. split; [by symmetry|by symmetry].
Qed.

Lemma reproduce_carries_elites_witness :
  ∃ st' best,
    reproduce (pool all_stand_state) (fitness all_stand_state)
      (population all_stand_state)
      (crossover_gen all_stand_state) (mutate_gen all_stand_state) = Some (st', best)
    ∧ (∀ i, (i < 50)%nat →
         ∃ elite partner child cost,
           population all_stand_state !! i = Some elite
           ∧ population all_stand_state !! (49 - i)%nat = Some partner
           ∧ offspring elite partner child
           ∧ population st' !! (2 * i)%nat = Some elite
           ∧ population st' !! (2 * i + 1)%nat = Some child
           ∧ fitness st' !! (2 * i)%nat = Some cost
           ∧ evaluateFitness Config.MAZE_SIZE elite main_maze = Some cost
           ∧ best ≤ cost)
    ∧ 2 ≤ best ≤ 2 * Config.MAZE_SIZE
    ∧ (∀ st2,
         well_formed st2 = true →
         take 50 (population st2) = take 50 (population all_stand_state) →
         crossover_gen st2 = crossover_gen all_stand_state →
         mutate_gen st2 = mutate_gen all_stand_state →
         ∃ st2',
           reproduce (pool st2) (fitness st2) (population st2)
             (crossover_gen st2) (mutate_gen st2) = Some (st2', best)
           ∧ population st2' = population st'
           ∧ fitness st2' = fitness st').
Proof.
  apply (reproduce_carries_elites all_stand_state). reflexivity.
Defined.

(** X15: with [std::partial_sort] of libstdc++, [main] completes no
    generation, whatever the generators draw: the initial population is
    built and the first evaluation fills the fitness table, then the
    selection is undefined at its first comparison with a copy held
    outside the vector, so nothing is printed after "Best Fitness: ". *)
Theorem main_undefined_in_first_selection (ggen cgen mgen : Gen) :
  ∃ st0 pool1 table,
    main_init ggen cgen mgen = Some st0
    ∧ evaluate_phase (pool st0) (population st0) (fitness st0) main_maze
      = Some (pool1, table)
    ∧ fitness_table (population st0) = Some table
    ∧ Libstdcxx.partial_sort [] (selection_comp table)
        (Config.POPULATION_SIZE ÷ 2) (population st0)
      = Libstdcxx.Undefined
    ∧ generation std_partial_sort st0 = None
    ∧ main std_partial_sort ggen cgen mgen = None.
Proof.
  destruct (main_init_well_formed ggen cgen mgen) as (st0 & Hinit & Hwf0).
  destruct (evaluate_phase_step st0 Hwf0) as (pool1 & table & He & Htab & _).
  exists st0, pool1, table.
  split; [exact Hinit|]. split; [exact He|]. split; [exact Htab|].
  split; [exact (partial_sort_selection_undefined _ _)|].
  split; [exact (generation_undefined _)|exact (main_undefined _ _ _)].
Qed.

(** ** More on selection and evaluation in [main] *)

Lemma selection_less_Some (fit : list Z) (a b : Z) (r : bool) :
  selection_less fit a b = Some r
  ↔ ∃ fa fb, vec_at fit a = Some fa ∧ vec_at fit b = Some fb ∧ r = (fa <? fb).
Proof.
  unfold selection_less. split.
  - destruct (vec_at fit a) as [fa|]; [|done].
    destruct (vec_at fit b) as [fb|]; [|done].
    intros [= <-]. by exists fa, fb.
  - intros (fa & fb & -> & -> & ->). done.
Qed.

(** X16: the selection comparator is defined exactly when both offsets
    lie inside the fitness table, and on such offsets it is a strict weak
    ordering of the offsets: irreflexive, asymmetric, transitive, with a
    transitive "neither is less" relation. *)
Theorem selection_less_orders_offsets (fit : list Z) (a b c : Z) :
  (is_Some (selection_less fit a b)
   ↔ 0 ≤ a < Z.of_nat (length fit) ∧ 0 ≤ b < Z.of_nat (length fit))
  ∧ selection_less fit a a ≠ Some true
  ∧ (selection_less fit a b = Some true → selection_less fit b a = Some false)
  ∧ (selection_less fit a b = Some true → selection_less fit b c = Some true →
     selection_less fit a c = Some true)
  ∧ (selection_less fit a b = Some false → selection_less fit b a = Some false →
     selection_less fit b c = Some false → selection_less fit c b = Some false →
     selection_less fit a c = Some false ∧ selection_less fit c a = Some false).
Proof.
  split; [|split; [|split; [|split]]].
  - split.
    + intros [r (fa & fb & Ha & Hb & _)%selection_less_Some].
      apply vec_at_inv in Ha as [Ha _]. apply vec_at_inv in Hb as [Hb _]. done.
    + intros [Ha Hb].
      destruct (vec_at_Some fit a Ha) as [fa Hfa].
      destruct (vec_at_Some fit b Hb) as [fb Hfb].
      exists (fa <? fb). apply selection_less_Some. by exists fa, fb.
  - intros (fa & fb & Ha & Hb & Hr)%selection_less_Some.
    rewrite Ha in Hb. injection Hb as <-. symmetry in Hr.
    apply Z.ltb_lt in Hr. lia.
  - intros (fa & fb & Ha & Hb & Hr)%selection_less_Some.
    apply selection_less_Some. exists fb, fa.
    split; [done|]. split; [done|]. symmetry in Hr. apply Z.ltb_lt in Hr.
    symmetry. apply Z.ltb_ge. lia.
  - intros (fa & fb & Ha & Hb & Hr)%selection_less_Some
           (fb' & fc & Hb' & Hc & Hr')%selection_less_Some.
    rewrite Hb in Hb'. injection Hb' as <-.
    apply selection_less_Some. exists fa, fc.
    split; [done|]. split; [done|]. symmetry in Hr, Hr'.
    apply Z.ltb_lt in Hr, Hr'. symmetry. apply Z.ltb_lt. lia.
  - intros (fa & fb & Ha & Hb & Hab)%selection_less_Some
           (fb1 & fa1 & Hb1 & Ha1 & Hba)%selection_less_Some
           (fb2 & fc & Hb2 & Hc & Hbc)%selection_less_Some
           (fc1 & fb3 & Hc1 & Hb3 & Hcb)%selection_less_Some.
    rewrite Hb in Hb1, Hb2, Hb3. injection Hb1 as <-. injection Hb2 as <-.
    injection Hb3 as <-. rewrite Ha in Ha1. injection Ha1 as <-.
    rewrite Hc in Hc1. injection Hc1 as <-.
    symmetry in Hab, Hba, Hbc, Hcb.
    apply Z.ltb_ge in Hab, Hba, Hbc, Hcb.
    split; apply selection_less_Some; [exists fa, fc|exists fc, fa];
      (split; [done|]); (split; [done|]); symmetry; apply Z.ltb_ge; lia.
Qed.

Lemma main_maze_open (x y c : Z) : cell_at main_maze y x = Some c → c = 0.
Proof.
  unfold cell_at, main_maze, open_maze.
  destruct (vec_at _ y) as [row|] eqn:Hrow; [|done]. cbn [mbind option_bind].
  apply vec_at_inv in Hrow as [_ Hrow].
  apply lookup_replicate in Hrow as [-> _].
  intros [_ Hc]%vec_at_inv. by apply lookup_replicate in Hc as [-> _].
Qed.

(** X17: [main]'s maze has no wall, so the evaluation of a genome there
    never stops early: it reads exactly one cell per move, and appending
    moves to a genome continues its walk. *)
Theorem main_maze_walks_whole_genome (genome suffix : Genome) :
  ∃ fx fy reads,
    walk Config.MAZE_SIZE main_maze genome 0 0 = Some (fx, fy, reads)
    ∧ length reads = length genome
    ∧ ends_on_wall main_maze reads = false
    ∧ walk Config.MAZE_SIZE main_maze (genome ++ suffix) 0 0
      = '(fx', fy', reads') ← walk Config.MAZE_SIZE main_maze suffix fx fy;
        Some (fx', fy', reads ++ reads').
Proof.
  destruct (walk_simulates Config.MAZE_SIZE main_maze genome) with (x := 0) (y := 0)
    as (fx & fy & reads & Hw & _); [reflexivity|by vm_compute|].
  destruct (walk_trace _ _ _ _ _ _ _ _ Hw) as (Hle & _ & _ & Hwall).
  assert (ends_on_wall main_maze reads = false) as Hopen.
  { unfold ends_on_wall. destruct (last reads) as [[px py]|]; [|done].
    apply bool_decide_eq_false_2. intros Hc%main_maze_open. done. }
  exists fx, fy, reads. split; [exact Hw|]. split.
  - destruct (decide (length reads < length genome)%nat) as [Hlt|]; [|lia].
    apply Hwall, main_maze_open in Hlt. done.
  - split; [exact Hopen|].
    pose proof (walk_append Config.MAZE_SIZE main_maze genome suffix _ _ _ _ _ Hw) as Happ.
    by rewrite Hopen in Happ.
Qed.

(** X18: when lines 201-232 are done the fitness table is already the
    table of the new population, so the evaluation phase at the top of
    the next iteration recomputes exactly the table it finds. *)
Theorem next_evaluation_recomputes_table (st : State) :
  well_formed st = true →
  ∃ st' best,
    reproduce (pool st) (fitness st) (population st)
      (crossover_gen st) (mutate_gen st) = Some (st', best)
    ∧ snd <$> evaluate_phase (pool st') (population st') (fitness st') main_maze
      = Some (fitness st').
Proof.
  intros Hwf.
  destruct (reproduce_step st Hwf) as (st' & best & Hr & Hwf' & Htab & _).
  exists st', best. split; [exact Hr|].
  apply well_formed_inv in Hwf' as (Hp & Hf & _ & Ht & Hw).
  destruct (evaluate_phase_table (pool st') (population st') (fitness st') Ht Hw Hp Hf)
    as (p' & fit' & He & _ & _ & _ & Htab').
  rewrite He. cbn [fmap option_fmap option_map snd].
  rewrite Htab in Htab'. by injection Htab' as ->.
Qed.

Lemma next_evaluation_recomputes_table_witness :
  ∃ st' best,
    reproduce (pool all_stand_state) (fitness all_stand_state)
      (population all_stand_state)
      (crossover_gen all_stand_state) (mutate_gen all_stand_state) = Some (st', best)
    ∧ snd <$> evaluate_phase (pool st') (population st') (fitness st') main_maze
      = Some (fitness st').
Proof.
  apply (next_evaluation_recomputes_table all_stand_state). reflexivity.
Defined.
